(** * Dashboard Fusion: panel merge, row grouping and grid repacking

    A shallow embedding of [fusion.go] (package [dashboardfusion]) and the
    properties of its merge algorithm.

    Go values are modelled as the program has them:
    - a [json.RawMessage] is a byte slice that may be [nil];
    - a [Panel] is a Go map, that is a reference to a mutable object which
      may be the [nil] map, so panels live in a heap and two slots of a
      slice may alias the same object;
    - [int] is a 64-bit signed integer with wrap-around;
    - a [panic] aborts the computation;
    - [range] over a map visits the keys in an order the language leaves
      unspecified. *)

From Stdlib Require Import ZArith Lia Ascii.
From stdpp Require Import base option list strings gmap pretty.

(** ** Go data *)

(** [json.RawMessage]: [None] is the nil slice, [Some s] a slice holding the
    bytes [s]. *)
Definition RawMessage : Type := option string.

(** The bytes of a slice; the nil slice has none. *)
Definition bytes (r : RawMessage) : string := default EmptyString r.

(** [bytes.Equal]: nil and empty slices are equal. *)
Definition bytes_Equal (a b : RawMessage) : bool :=
  bool_decide (bytes a = bytes b).

(** Go's [int] on a 64-bit platform. *)
Definition wrap64 (z : Z) : Z := ((z + 2 ^ 63) mod 2 ^ 64 - 2 ^ 63)%Z.
Definition add64 (a b : Z) : Z := wrap64 (a + b).

(** [type GridPos struct { H, W, X, Y int }] *)
Record GridPos : Type := mkGridPos { H : Z; W : Z; X : Z; Y : Z }.

Definition GridPos_zero : GridPos := mkGridPos 0 0 0 0.

(** The contents of a [map[string]json.RawMessage]. *)
Abbreviation PanelObj := (gmap string RawMessage).

(** [type Panel map[string]json.RawMessage]: the nil map or a reference. *)
Definition loc : Type := nat.
Definition Panel : Type := option loc.
Definition nilPanel : Panel := None.

Abbreviation Heap := (gmap loc PanelObj).

(** [type Dashboard map[string]json.RawMessage]: the program only reads a
    dashboard, so it is the map it holds (the nil map reads as the empty
    one). *)
Definition Dashboard : Type := gmap string RawMessage.

(** ** The computations of the program: heap passing, [None] is a panic *)

Definition M (A : Type) : Type := Heap → option (A * Heap).

Definition ret {A} (a : A) : M A := λ σ, Some (a, σ).
Definition bind {A B} (m : M A) (k : A → M B) : M B :=
  λ σ, match m σ with
       | Some (a, σ') => k a σ'
       | None => None
       end.
Definition panic {A} : M A := λ _, None.
Definition get_heap : M Heap := λ σ, Some (σ, σ).
Definition liftO {A} (o : option A) : M A :=
  match o with Some a => ret a | None => panic end.

Notation "'let*' x ':=' m 'in' k" := (bind m (λ x, k))
  (at level 10, x pattern, m at level 100, k at level 200).

(** A [for ... range] loop over a slice, threading the loop state. *)
Fixpoint foldM {A S} (f : S → A → M S) (s : S) (l : list A) : M S :=
  match l with
  | [] => ret s
  | a :: l' => let* s' := f s a in foldM f s' l'
  end.

(** ** Map-valued panels in the heap *)

Definition deref (σ : Heap) (l : loc) : PanelObj := default ∅ (σ !! l).

(** [v, ok := p[k]] : reading a nil map finds nothing. *)
Definition field_ok (σ : Heap) (p : Panel) (k : string) : option RawMessage :=
  match p with
  | Some l => deref σ l !! k
  | None => None
  end.

(** [p[k]] : an absent key reads as the nil slice. *)
Definition field (σ : Heap) (p : Panel) (k : string) : RawMessage :=
  default None (field_ok σ p k).

(** [p[k] = v] : assignment to an entry of the nil map panics. *)
Definition assign (p : Panel) (k : string) (v : RawMessage) : M unit :=
  λ σ, match p with
       | Some l => Some (tt, <[l := <[k := v]> (deref σ l)]> σ)
       | None => None
       end.

(** A fresh map object, as [json.Unmarshal] makes one for each element of a
    decoded array; a JSON [null] element decodes to the nil map. *)
Definition allocPanel (o : option PanelObj) : M Panel :=
  match o with
  | Some m => λ σ, let l := fresh (dom σ) in Some (Some l, <[l := m]> σ)
  | None => ret nilPanel
  end.

Fixpoint allocPanels (os : list (option PanelObj)) : M (list Panel) :=
  match os with
  | [] => ret []
  | o :: os' =>
      let* p := allocPanel o in
      let* ps := allocPanels os' in
      ret (p :: ps)
  end.

(** ** What the program uses of [encoding/json]

    The package is a dependency, not part of the repository: its decoders
    and encoder are taken as an interface. A result [None] is [err != nil].
    [json.Marshal] of a struct of ints, of an empty slice or of a bool never
    fails, so the [panic(err)] branches after it are unreachable. *)
Class JSON : Type := {
  (** [json.Unmarshal(b, &s)] with [s] a fresh [string]. *)
  unmarshal_string : string → option string;
  (** [json.Unmarshal(b, &g)] with [g] a fresh [GridPos]. *)
  unmarshal_GridPos : string → option GridPos;
  (** [json.Unmarshal(b, &ps)] with [ps] a fresh [[]Panel]. *)
  unmarshal_Panels : string → option (list (option PanelObj));
  (** [json.Marshal(g)] with [g] a [GridPos]. *)
  marshal_GridPos : GridPos → string;
}.

(** The order in which [range] visits the keys of a map: any arrangement
    of the keys, possibly a different one at each loop [site]. *)
Class MapRange : Type := {
  range_order : nat → list string → list string;
  range_order_perm : ∀ site l, range_order site l ≡ₚ l;
}.

Definition range_keys `{MapRange} {V} (site : nat) (m : gmap string V)
  : list string :=
  range_order site (elements (dom m)).

Definition s_title : string := "title".
Definition s_type : string := "type".
Definition s_id : string := "id".
Definition s_gridPos : string := "gridPos".
Definition s_panels : string := "panels".
Definition s_collapsed : string := "collapsed".
Definition s_row : string := "row".
Definition s_none : string := "none".

(** [json.Marshal([]Panel{})] and [json.Marshal(false)]. *)
Definition raw_empty_array : RawMessage := Some "[]"%string.
Definition raw_false : RawMessage := Some "false"%string.

Section Fusion.
Context `{JSON}.

(** [func (p Panel) Equals(p2 Panel) bool] *)
Definition Equals (σ : Heap) (p p2 : Panel) : bool :=
  bytes_Equal (field σ p s_title) (field σ p2 s_title) &&
  bytes_Equal (field σ p s_type) (field σ p2 s_type).

Definition IDRaw (σ : Heap) (p : Panel) : RawMessage := field σ p s_id.
Definition GridPosRaw (σ : Heap) (p : Panel) : RawMessage := field σ p s_gridPos.
Definition TypeRaw (σ : Heap) (p : Panel) : RawMessage := field σ p s_type.
Definition TitleRaw (σ : Heap) (p : Panel) : RawMessage := field σ p s_title.
Definition PanelsRaw (σ : Heap) (p : Panel) : RawMessage := field σ p s_panels.

(** [func (p Panel) GridPos() GridPos]: [None] is the panic on a value that
    does not decode; an absent key gives the zero rectangle. *)
Definition Panel_GridPos (σ : Heap) (p : Panel) : option GridPos :=
  match field_ok σ p s_gridPos with
  | Some gp => unmarshal_GridPos (bytes gp)
  | None => Some GridPos_zero
  end.

Definition GridPosM (p : Panel) : M GridPos :=
  let* σ := get_heap in liftO (Panel_GridPos σ p).

(** [func (d Dashboard) Panels() []Panel]: the decoded panels are new map
    objects; a value that does not decode panics, an absent key gives the
    nil slice. *)
Definition Dashboard_Panels (d : Dashboard) : M (list Panel) :=
  match d !! s_panels with
  | Some ps =>
      match unmarshal_Panels (bytes ps) with
      | Some objs => allocPanels objs
      | None => panic
      end
  | None => ret []
  end.

(** *** MergePanels *)

(** The body of the first loop: [maxY] and [res]. *)
Definition baseStep (st : Z * list Panel) (p1 : Panel) : M (Z * list Panel) :=
  let '(maxY, res) := st in
  let* gp := GridPosM p1 in
  let bottom := add64 (Y gp) (H gp) in
  ret (if (maxY <? bottom)%Z then bottom else maxY, res ++ [p1]).

(** The body of [for i := range res]. Both right-hand sides of the tuple
    assignment are read before [p2] is written. *)
Definition overwriteStep (p2 : Panel) (st : list Panel * bool) (i : nat)
  : M (list Panel * bool) :=
  let '(res, matched) := st in
  let* σ := get_heap in
  let ri := default nilPanel (res !! i) in
  if Equals σ ri p2 then
    let g := GridPosRaw σ ri in
    let d := IDRaw σ ri in
    let* _ := assign p2 s_gridPos g in
    let* _ := assign p2 s_id d in
    ret (<[i := p2]> res, true)
  else ret (res, matched).

Definition defaultRect (maxY : Z) : GridPos :=
  {| H := 2; W := 6; X := 0; Y := add64 maxY 1 |}.

(** The body of [for len(ps2) > 0]. *)
Definition mergeStep (st : Z * list Panel) (p2 : Panel) : M (Z * list Panel) :=
  let '(maxY, res) := st in
  let* (res', matched) :=
    foldM (overwriteStep p2) (res, false) (seq 0 (length res)) in
  if matched : bool then ret (maxY, res')
  else
    let g := defaultRect maxY in
    let* _ := assign p2 s_gridPos (Some (marshal_GridPos g)) in
    ret (add64 maxY (H g), res' ++ [p2]).

Definition MergePanels (ps1 ps2 : list Panel) : M (list Panel) :=
  let* (maxY, res) := foldM baseStep (0%Z, []) ps1 in
  let* (_, res') := foldM mergeStep (maxY, res) ps2 in
  ret res'.

(** *** groupByRow *)

Record GroupState : Type := mkGroupState {
  groups : gmap string (list Panel);
  rows : gmap string Panel;
  groupName : string;
}.

(** [groups[name]]: the nil slice when the key is absent. *)
Definition group_of (g : gmap string (list Panel)) (name : string) : list Panel :=
  default [] (g !! name).

(** [rows[name]]: the nil map when the key is absent. *)
Definition row_of (r : gmap string Panel) (name : string) : Panel :=
  default nilPanel (r !! name).

Definition retrieveEmbeddedPanels (p : Panel) : M (list Panel) :=
  let* σ := get_heap in
  match PanelsRaw σ p with
  | Some panelsRaw =>
      match unmarshal_Panels panelsRaw with
      | Some objs => allocPanels objs
      | None => ret []
      end
  | None => ret []
  end.

(** The title a row marker gives to the running group name: the name is
    assigned only when the title is present and decodes. *)
Definition rowGroupName (σ : Heap) (p : Panel) (current : string) : string :=
  match TitleRaw σ p with
  | Some tr =>
      match unmarshal_string tr with
      | Some title => title
      | None => current
      end
  | None => current
  end.

(** The body of the loop of [groupByRow]. *)
Definition groupStep (st : GroupState) (p : Panel) : M GroupState :=
  let* σ := get_heap in
  match TypeRaw σ p with
  | Some t =>
      match unmarshal_string t with
      | Some panelType =>
          if String.eqb panelType s_row then
            let name := rowGroupName σ p (groupName st) in
            let* embedded := retrieveEmbeddedPanels p in
            let groups' :=
              <[name := group_of (groups st) name ++ embedded]> (groups st) in
            let* _ := assign p s_panels raw_empty_array in
            let* _ := assign p s_collapsed raw_false in
            ret {| groups := groups';
                   rows := <[name := p]> (rows st);
                   groupName := name |}
          else
            let name := groupName st in
            ret {| groups := <[name := group_of (groups st) name ++ [p]]> (groups st);
                   rows := rows st;
                   groupName := name |}
      | None => ret st
      end
  | None => ret st
  end.

Definition groupByRow (ps : list Panel)
  : M (gmap string (list Panel) * gmap string Panel) :=
  let* st := foldM groupStep (mkGroupState ∅ ∅ s_none) ps in
  ret (groups st, rows st).

(** *** MergePanelsByGroup *)

Context `{MapRange}.

(** [for name, g1 := range groupsPs1]. *)
Definition mergeGroupStep (groupsPs1 groupsPs2 : gmap string (list Panel))
    (mergedGroups : gmap string (list Panel)) (name : string)
  : M (gmap string (list Panel)) :=
  let g1 := group_of groupsPs1 name in
  match groupsPs2 !! name with
  | Some g2 =>
      let* r := MergePanels g1 g2 in
      ret (<[name := r]> mergedGroups)
  | None => ret (<[name := g1]> mergedGroups)
  end.

(** [for name, g2 := range groupsPs2]. *)
Definition addGroupStep (groupsPs2 : gmap string (list Panel))
    (mergedGroups : gmap string (list Panel)) (name : string)
  : gmap string (list Panel) :=
  match mergedGroups !! name with
  | Some _ => mergedGroups
  | None => <[name := group_of groupsPs2 name]> mergedGroups
  end.

Definition mergeGroups (groupsPs1 groupsPs2 : gmap string (list Panel))
  : M (gmap string (list Panel)) :=
  let* m := foldM (mergeGroupStep groupsPs1 groupsPs2) ∅
              (range_keys 1 groupsPs1) in
  ret (foldl (addGroupStep groupsPs2) m (range_keys 2 groupsPs2)).

(** [for title := range rowsPs2]: the rows that belong only to [ps2]. *)
Definition onlyPs2Step (rowsPs1 : gmap string Panel)
    (onlyPs2 : list string) (title : string) : list string :=
  match rowsPs1 !! title with
  | Some _ => onlyPs2
  | None => onlyPs2 ++ [title]
  end.

Definition onlyInPs2 (rowsPs1 rowsPs2 : gmap string Panel) : list string :=
  foldl (onlyPs2Step rowsPs1) [] (range_keys 3 rowsPs2).

(** [for title, panels := range mergedGroups]: [tmp1] and [seen]. *)
Definition newGroupStep (rowsPs2 : gmap string Panel)
    (mergedGroups : gmap string (list Panel)) (onlyPs2 : list string)
    (st : list Panel * gset string) (title : string)
  : list Panel * gset string :=
  let '(tmp1, seen) := st in
  if bool_decide (title ∈ onlyPs2) then
    let header := row_of rowsPs2 title in
    ((tmp1 ++ [header]) ++ group_of mergedGroups title, {[title]} ∪ seen)
  else (tmp1, seen).

Definition newGroupsBlock (rowsPs2 : gmap string Panel)
    (mergedGroups : gmap string (list Panel)) (onlyPs2 : list string)
  : list Panel * gset string :=
  foldl (newGroupStep rowsPs2 mergedGroups onlyPs2) ([], ∅)
        (range_keys 4 mergedGroups).

(** The title the walk over [ps1] resolves for a row marker: the decoded
    title, the empty string when decoding fails (the error is discarded and
    the variable keeps its zero value), ["none"] when the field is absent. *)
Definition walkTitle (σ : Heap) (p : Panel) : string :=
  match TitleRaw σ p with
  | Some tr => default EmptyString (unmarshal_string tr)
  | None => s_none
  end.

(** The header appended for a row marker [p] of [ps1] with the resolved
    [title]: the header of [ps1], else the header of [ps2], else [p]. *)
Definition chooseHeader (rowsPs1 rowsPs2 : gmap string Panel)
    (title : string) (p : Panel) : Panel :=
  match rowsPs1 !! title with
  | Some header => header
  | None =>
      match rowsPs2 !! title with
      | Some header => header
      | None => p
      end
  end.

(** The body of [for _, p := range ps1]: [tmp2] and [seen]. *)
Definition walkStep (σ : Heap) (rowsPs1 rowsPs2 : gmap string Panel)
    (mergedGroups : gmap string (list Panel))
    (st : list Panel * gset string) (p : Panel)
  : list Panel * gset string :=
  let '(tmp2, seen) := st in
  match TypeRaw σ p with
  | Some t =>
      match unmarshal_string t with
      | Some panelType =>
          if String.eqb panelType s_row then
            let title := walkTitle σ p in
            let header := chooseHeader rowsPs1 rowsPs2 title p in
            let tmp2 := tmp2 ++ [header] in
            if bool_decide (title ∈ seen) then (tmp2, seen)
            else
              (match mergedGroups !! title with
               | Some panels => tmp2 ++ panels
               | None => tmp2
               end, {[title]} ∪ seen)
          else (tmp2, seen)
      | None => (tmp2, seen)
      end
  | None => (tmp2, seen)
  end.

Definition existingGroupsBlock (σ : Heap) (rowsPs1 rowsPs2 : gmap string Panel)
    (mergedGroups : gmap string (list Panel)) (seen : gset string)
    (ps1 : list Panel) : list Panel * gset string :=
  foldl (walkStep σ rowsPs1 rowsPs2 mergedGroups) ([], seen) ps1.

(** The assembled sequence, before the grid positions are rewritten. *)
Definition assemble (σ : Heap) (rowsPs1 rowsPs2 : gmap string Panel)
    (mergedGroups : gmap string (list Panel)) (ps1 : list Panel) (top : bool)
  : list Panel :=
  let onlyPs2 := onlyInPs2 rowsPs1 rowsPs2 in
  let '(tmp1, seen) := newGroupsBlock rowsPs2 mergedGroups onlyPs2 in
  let '(tmp2, _) := existingGroupsBlock σ rowsPs1 rowsPs2 mergedGroups seen ps1 in
  group_of mergedGroups s_none ++
  (if top then tmp1 ++ tmp2 else tmp2 ++ tmp1).

(** The state of the repacking pass. *)
Record RepackState : Type := mkRepackState {
  currentY : Z;
  currentRowWidth : Z;
  currentRowMaxBottom : Z;
}.

Definition maxWidth : Z := 24.

Definition repackInit : RepackState := mkRepackState 0 0 0.

(** The state after the test that opens a new row. *)
Definition openRow (st : RepackState) (pos : GridPos) : RepackState :=
  if (maxWidth <? add64 (currentRowWidth st) (W pos))%Z
  then {| currentY := add64 (currentY st) (currentRowMaxBottom st);
          currentRowWidth := 0;
          currentRowMaxBottom := 0 |}
  else st.

(** The rectangle given to a panel whose decoded rectangle is [pos], and the
    state after it. *)
Definition place (st : RepackState) (pos : GridPos) : GridPos * RepackState :=
  let st1 := openRow st pos in
  ({| H := H pos; W := W pos; X := currentRowWidth st1; Y := currentY st1 |},
   {| currentY := currentY st1;
      currentRowWidth := add64 (currentRowWidth st1) (W pos);
      currentRowMaxBottom :=
        if (currentRowMaxBottom st1 <? H pos)%Z then H pos
        else currentRowMaxBottom st1 |}).

(** The body of [for i := range res]; the first component of the loop state
    records the rectangles written so far. *)
Definition repackStep (st : list GridPos * RepackState) (panel : Panel)
  : M (list GridPos * RepackState) :=
  let '(placed, rs) := st in
  let* pos := GridPosM panel in
  let '(pos', rs') := place rs pos in
  let* _ := assign panel s_gridPos (Some (marshal_GridPos pos')) in
  ret (placed ++ [pos'], rs').

Definition repack (res : list Panel) : M (list GridPos) :=
  let* (placed, _) := foldM repackStep ([], repackInit) res in
  ret placed.

Definition MergePanelsByGroup (ps1 ps2 : list Panel) (top : bool)
  : M (list Panel) :=
  let* (groupsPs1, rowsPs1) := groupByRow ps1 in
  let* (groupsPs2, rowsPs2) := groupByRow ps2 in
  let* mergedGroups := mergeGroups groupsPs1 groupsPs2 in
  let* σ := get_heap in
  let res := assemble σ rowsPs1 rowsPs2 mergedGroups ps1 top in
  let* _ := repack res in
  ret res.

End Fusion.
(** ** A decoder for the examples

    [GoJSON] implements the interface on the fragment of JSON that the
    examples below use: compact text (no white space), strings without
    escape sequences, integers, [true], [false], [null], arrays and
    objects. On this fragment it agrees with [encoding/json]; text outside
    the fragment is reported as an error. *)
Module GoJSON.

Definition DQ : ascii := "034"%char.

Definition quote (s : string) : string :=
  String DQ (s +:+ String DQ EmptyString).

Definition is_digit (c : ascii) : bool :=
  (48 <=? nat_of_ascii c)%nat && (nat_of_ascii c <=? 57)%nat.

(** The body of a string up to the closing quote, and the rest. *)
Fixpoint scan_string_body (s : string) : option (string * string) :=
  match s with
  | EmptyString => None
  | String c s' =>
      if Ascii.eqb c DQ then Some (EmptyString, s')
      else if Ascii.eqb c "\"%char || (nat_of_ascii c <? 32)%nat then None
      else match scan_string_body s' with
           | Some (b, r) => Some (String c b, r)
           | None => None
           end
  end.

Fixpoint scan_digits (s : string) : string * string :=
  match s with
  | String c s' =>
      if is_digit c then let '(d, r) := scan_digits s' in (String c d, r)
      else (EmptyString, s)
  | EmptyString => (EmptyString, EmptyString)
  end.

(** An integer literal: an optional sign, then [0] or digits that do not
    start with [0]. *)
Definition scan_int (s : string) : option (string * string) :=
  let '(sign, s1) :=
    match s with
    | String "-" s' => ("-"%string, s')
    | _ => (EmptyString, s)
    end in
  match scan_digits s1 with
  | (EmptyString, _) => None
  | (String "0" (String _ _), _) => None
  | (d, r) => Some (sign +:+ d, r)
  end.

Definition strip_prefix (p s : string) : option string :=
  if String.prefix p s
  then Some (String.substring (String.length p) (String.length s - String.length p) s)
  else None.

Definition join_comma (l : list string) : string :=
  match l with
  | [] => EmptyString
  | x :: l' => foldl (λ acc y, acc +:+ "," +:+ y) x l'
  end.

Definition render_member (kv : string * string) : string :=
  quote kv.1 +:+ ":" +:+ kv.2.

(** One JSON value at the head of [s]: its text and the rest. *)
Fixpoint scan_value (fuel : nat) (s : string) {struct fuel}
  : option (string * string) :=
  match fuel with
  | 0 => None
  | S n =>
      match s with
      | EmptyString => None
      | String c s' =>
          if Ascii.eqb c DQ then
            match scan_string_body s' with
            | Some (b, r) => Some (quote b, r)
            | None => None
            end
          else if Ascii.eqb c "[" then
            match scan_elems n s' with
            | Some (es, r) => Some ("[" +:+ join_comma es +:+ "]", r)
            | None => None
            end
          else if Ascii.eqb c "{" then
            match scan_members n s' with
            | Some (ms, r) =>
                Some ("{" +:+ join_comma (render_member <$> ms) +:+ "}", r)
            | None => None
            end
          else
            match strip_prefix "true" s, strip_prefix "false" s,
                  strip_prefix "null" s with
            | Some r, _, _ => Some ("true"%string, r)
            | _, Some r, _ => Some ("false"%string, r)
            | _, _, Some r => Some ("null"%string, r)
            | _, _, _ => scan_int s
            end
      end
  end
(** The elements of an array after its opening bracket. *)
with scan_elems (fuel : nat) (s : string) {struct fuel}
  : option (list string * string) :=
  match fuel with
  | 0 => None
  | S n =>
      match s with
      | String "]" r => Some ([], r)
      | _ =>
          match scan_value n s with
          | Some (v, String "]" r) => Some ([v], r)
          | Some (v, String "," r) =>
              match scan_elems n r with
              | Some (v' :: vs, r') => Some (v :: v' :: vs, r')
              | _ => None
              end
          | _ => None
          end
      end
  end
(** The members of an object after its opening brace. *)
with scan_members (fuel : nat) (s : string) {struct fuel}
  : option (list (string * string) * string) :=
  match fuel with
  | 0 => None
  | S n =>
      match s with
      | String "}" r => Some ([], r)
      | String c s' =>
          if Ascii.eqb c DQ then
            match scan_string_body s' with
            | Some (k, String ":" r) =>
                match scan_value n r with
                | Some (v, String "}" r') => Some ([(k, v)], r')
                | Some (v, String "," r') =>
                    match scan_members n r' with
                    | Some (kv :: ms, r'') => Some ((k, v) :: kv :: ms, r'')
                    | _ => None
                    end
                | _ => None
                end
            | _ => None
            end
          else None
      | EmptyString => None
      end
  end.

Definition fuel_for (s : string) : nat := S (String.length s).

Definition decode_array (s : string) : option (list string) :=
  match s with
  | String "[" s' =>
      match scan_elems (fuel_for s) s' with
      | Some (es, EmptyString) => Some es
      | _ => None
      end
  | _ => None
  end.

Definition decode_object (s : string) : option (list (string * string)) :=
  match s with
  | String "{" s' =>
      match scan_members (fuel_for s) s' with
      | Some (ms, EmptyString) => Some ms
      | _ => None
      end
  | _ => None
  end.

Fixpoint digits_value (s : string) (acc : Z) : Z :=
  match s with
  | String c s' => digits_value s' (10 * acc + (Z.of_nat (nat_of_ascii c) - 48))
  | EmptyString => acc
  end.

(** An integer literal that fits Go's [int]. *)
Definition decode_int (s : string) : option Z :=
  match scan_int s with
  | Some (String "-" d, EmptyString) =>
      let z := (- digits_value d 0)%Z in
      if (- 2 ^ 63 <=? z)%Z then Some z else None
  | Some (d, EmptyString) =>
      let z := digits_value d 0 in
      if (z <? 2 ^ 63)%Z then Some z else None
  | _ => None
  end.

Definition decode_string (s : string) : option string :=
  if String.eqb s "null" then Some EmptyString
  else
    match s with
    | String c s' =>
        if Ascii.eqb c DQ then
          match scan_string_body s' with
          | Some (b, EmptyString) => Some b
          | _ => None
          end
        else None
    | EmptyString => None
    end.

(** One member of a [GridPos] object: the struct fields are matched
    without regard to case, other keys are skipped, [null] leaves the field
    as it is. *)
Definition set_GridPos_field (g : option GridPos) (kv : string * string)
  : option GridPos :=
  match g with
  | None => None
  | Some g =>
      let k := kv.1 in
      let named k1 k2 := String.eqb k k1 || String.eqb k k2 in
      if negb (named "h" "H" || named "w" "W" || named "x" "X" || named "y" "Y")%string
      then (if scan_value (fuel_for kv.2) kv.2 is Some _ then Some g else None)
      else if String.eqb kv.2 "null" then Some g
      else
        match decode_int kv.2 with
        | Some z =>
            Some (if named "h" "H" then mkGridPos z (W g) (X g) (Y g)
                  else if named "w" "W" then mkGridPos (H g) z (X g) (Y g)
                  else if named "x" "X" then mkGridPos (H g) (W g) z (Y g)
                  else mkGridPos (H g) (W g) (X g) z)%string
        | None => None
        end
  end.

Definition decode_GridPos (s : string) : option GridPos :=
  if String.eqb s "null" then Some GridPos_zero
  else
    match decode_object s with
    | Some ms => foldl set_GridPos_field (Some GridPos_zero) ms
    | None => None
    end.

(** One element of a [[]Panel]: an object, or [null] for the nil map. A
    repeated key keeps its last value. *)
Definition decode_Panel (s : string) : option (option PanelObj) :=
  if String.eqb s "null" then Some None
  else
    match decode_object s with
    | Some ms =>
        Some (Some (foldl (λ m kv, <[kv.1 := Some kv.2]> m) ∅ ms))
    | None => None
    end.

Definition decode_Panels (s : string) : option (list (option PanelObj)) :=
  if String.eqb s "null" then Some []
  else
    match decode_array s with
    | Some es => mapM decode_Panel es
    | None => None
    end.

Definition encode_GridPos (g : GridPos) : string :=
  "{" +:+ quote "h" +:+ ":" +:+ pretty (H g) +:+ "," +:+
          quote "w" +:+ ":" +:+ pretty (W g) +:+ "," +:+
          quote "x" +:+ ":" +:+ pretty (X g) +:+ "," +:+
          quote "y" +:+ ":" +:+ pretty (Y g) +:+ "}".

#[export] Instance json : JSON := {|
  unmarshal_string := decode_string;
  unmarshal_GridPos := decode_GridPos;
  unmarshal_Panels := decode_Panels;
  marshal_GridPos := encode_GridPos;
|}.

End GoJSON.

(** ** Definitions used by the statements *)

(** The identity key of a panel: the two byte strings that [Equals]
    compares. *)
Definition key (σ : Heap) (p : Panel) : string * string :=
  (bytes (field σ p s_title), bytes (field σ p s_type)).

(** The scan [for i := range res] of [MergePanels] by recursion on the
    slots that remain; [overwrite_loop_eq] below shows it is the loop. *)
Fixpoint overwriteAll (p2 : Panel) (res : list Panel) : M (list Panel * bool) :=
  match res with
  | [] => ret ([], false)
  | r :: rest =>
      let* σ := get_heap in
      if Equals σ r p2 then
        let* _ := assign p2 s_gridPos (GridPosRaw σ r) in
        let* _ := assign p2 s_id (IDRaw σ r) in
        let* (rest', _) := overwriteAll p2 rest in
        ret (p2 :: rest', true)
      else
        let* (rest', m) := overwriteAll p2 rest in
        ret (r :: rest', m)
  end.

(** [maxY] after the first loop of [MergePanels]: the largest bottom edge
    [y + h] of the decoded rectangles, starting from 0. *)
Definition maxBottom (gps : list GridPos) : Z :=
  foldl (λ m g, Z.max m (add64 (Y g) (H g))) 0%Z gps.

(** The panels of [res] that match [p2] and are not the object [p2]
    itself: the slots whose [gridPos] and [id] the scan copies into [p2]. *)
Definition sources (σ : Heap) (p2 : Panel) (res : list Panel) : list Panel :=
  filter (λ r, Equals σ r p2 = true ∧ r ≠ p2) res.

(** The rectangles the repacking pass writes for the decoded rectangles
    [gs], from the state [st]. *)
Fixpoint placeAll (st : RepackState) (gs : list GridPos) : list GridPos :=
  match gs with
  | [] => []
  | g :: gs' => let '(g', st') := place st g in g' :: placeAll st' gs'
  end.




(** What the grouping code reads of a panel: its type and its title as
    strings, when the field is present and decodes. *)
Definition decodedType `{JSON} (σ : Heap) (p : Panel) : option string :=
  match TypeRaw σ p with
  | Some t => unmarshal_string t
  | None => None
  end.

Definition decodedTitle `{JSON} (σ : Heap) (p : Panel) : option string :=
  match TitleRaw σ p with
  | Some tr => unmarshal_string tr
  | None => None
  end.

(** A row marker, and a content panel: a panel whose type decodes to a
    string other than ["row"]. *)
Definition isRow `{JSON} (σ : Heap) (p : Panel) : Prop :=
  decodedType σ p = Some s_row.

Definition isContent `{JSON} (σ : Heap) (p : Panel) : Prop :=
  ∃ ty, decodedType σ p = Some ty ∧ ty ≠ s_row.

(** The objects of [σ] are still there in [σ'] with the same fields,
    except possibly the fields named in [ks]. *)
Definition stable (ks : list string) (σ σ' : Heap) : Prop :=
  dom σ ⊆ dom σ' ∧
  ∀ l k, l ∈ dom σ → k ∉ ks → deref σ' l !! k = deref σ l !! k.

(** The fields the program writes. *)
Definition written : list string := [s_gridPos; s_id; s_panels; s_collapsed].

#[export] Instance isRow_dec `{JSON} (σ : Heap) (p : Panel) : Decision (isRow σ p).
Proof. unfold isRow. apply _. Defined.


(** What the loop of [groupByRow] keeps, from the heap [σ0] it starts in;
    [done] are the panels visited so far. *)
Definition grouped `{JSON} (σ0 : Heap) (done : list Panel) (st : GroupState) (σ : Heap)
  : Prop :=
  stable written σ0 σ ∧
  (∀ p, p ∈ done → isContent σ0 p → ∃ name, p ∈ group_of (groups st) name) ∧
  dom (rows st) ⊆ dom (groups st) ∧
  (∀ name, name ∈ dom (groups st) → name = s_none ∨ name ∈ dom (rows st)) ∧
  (groupName st = s_none ∨ groupName st ∈ dom (rows st)) ∧
  (∀ name, name ∈ dom (rows st) →
     ∃ p, p ∈ done ∧ isRow σ p ∧ rows st !! name = Some p ∧
          (name = s_none ∨ ∃ p', p' ∈ done ∧ isRow σ p' ∧
                                 decodedTitle σ p' = Some name)) ∧
  (∀ p name, p ∈ done → isRow σ0 p → decodedTitle σ0 p = Some name →
     name ∈ dom (rows st)).

(** The merged groups: one entry for each group name of either side, and
    every panel of a group is represented in the merged group of that name
    by a panel with the same key. *)
Definition covers (σ : Heap) (g1 g2 m : gmap string (list Panel)) (name : string)
  : Prop :=
  ∀ x, x ∈ group_of g1 name ∨ x ∈ group_of g2 name →
       ∃ r, r ∈ group_of m name ∧ key σ r = key σ x.

(** The panels of [ps] whose type decodes: those that [groupByRow] does
    not skip. *)
Definition typed `{JSON} (σ : Heap) (ps : list Panel) : list Panel :=
  filter (λ p, is_Some (decodedType σ p)) ps.

(** The addresses of the non-nil panels of a slice. *)
Definition locs (ps : list Panel) : list loc := omap id ps.

(** What the loop of [groupByRow] writes, from the heap [σ0] it starts
    in: only [panels] and [collapsed], never in an object that is not a row
    marker, and every recorded row marker is left flattened and
    expanded. *)
Definition flattened `{JSON} (σ0 : Heap) (st : GroupState) (σ : Heap) : Prop :=
  stable [s_panels; s_collapsed] σ0 σ ∧
  (∀ l, l ∈ dom σ0 → ¬ isRow σ0 (Some l) → deref σ l = deref σ0 l) ∧
  (∀ name p, rows st !! name = Some p →
     (∃ l, p = Some l ∧ l ∈ dom σ) ∧
     field σ p s_panels = raw_empty_array ∧
     field σ p s_collapsed = raw_false).

(** ** Dashboards for the examples *)
Module Examples.
Import GoJSON.

(** The orders in which the examples let [range] visit a map: the order
    of [elements], and its reverse. *)
Definition range_fwd : MapRange :=
  {| range_order := λ _ l, l;
     range_order_perm := λ _ l, reflexivity l |}.

Definition range_rev : MapRange :=
  {| range_order := λ _ l, reverse l;
     range_order_perm := λ _ l, reverse_Permutation l |}.

(** The object [{"title":t,"type":ty,"id":id,"gridPos":g}]. *)
Definition panelObj (title type : string) (id : Z) (g : GridPos) : PanelObj :=
  <[s_title := Some (quote title)]>
  (<[s_type := Some (quote type)]>
  (<[s_id := Some (pretty id)]>
  {[s_gridPos := Some (encode_GridPos g)]})).

(** A row marker [{"title":t,"type":"row","id":id,"gridPos":{h:1,w:24}}]. *)
Definition rowObj (title : string) (id : Z) : PanelObj :=
  panelObj title s_row id (mkGridPos 1 24 0 0).

(** The text [[{"title":"disk","type":"graph"}]] of a nested panel list. *)
Definition nested_disk : string :=
  "[{" +:+ quote "title" +:+ ":" +:+ quote "disk" +:+ "," +:+
           quote "type" +:+ ":" +:+ quote "graph" +:+ "}]".

(** A row marker without title that nests the panel [disk]. *)
Definition untitledRowObj (id : Z) : PanelObj :=
  <[s_type := Some (quote s_row)]>
  (<[s_id := Some (pretty id)]>
  {[s_panels := Some nested_disk]}).


(** The heap that holds the objects [os] at the addresses [0, 1, ...]. *)
Definition heap_of (os : list PanelObj) : Heap :=
  list_to_map (zip (seq 0 (length os)) os).

Definition at_loc (l : loc) : Panel := Some l.

(** The heap a run ends in (the heap it starts in when it panics). *)
Definition heap_after {A} (m : M A) (σ : Heap) : Heap :=
  match m σ with
  | Some (_, σ') => σ'
  | None => σ
  end.

(** Two panels [cpu] of type [graph] side by side, and a third one with
    the same title and type that comes in. *)
Definition cpu_heap : Heap :=
  heap_of [panelObj "cpu" "graph" 1 (mkGridPos 4 12 0 0);
           panelObj "cpu" "graph" 2 (mkGridPos 4 12 12 0);
           panelObj "cpu" "graph" 9 (mkGridPos 8 8 0 0)].

(** A panel [cpu] and a panel [mem]. *)
Definition cpu_mem_heap : Heap :=
  heap_of [panelObj "cpu" "graph" 1 (mkGridPos 4 12 0 0);
           panelObj "mem" "graph" 2 (mkGridPos 4 12 12 0)].

(** Three panels of widths 12, 12 and 8. *)
Definition wide_heap : Heap :=
  heap_of [panelObj "cpu" "graph" 1 (mkGridPos 4 12 0 0);
           panelObj "mem" "graph" 2 (mkGridPos 6 12 0 0);
           panelObj "net" "graph" 3 (mkGridPos 3 8 0 0)].

(** A row [A], then a row without title that nests a panel. *)
Definition untitled_heap : Heap :=
  heap_of [rowObj "A" 1; untitledRowObj 2].

(** Two row markers with the same title [A], and a content panel. *)
Definition twice_heap : Heap :=
  heap_of [rowObj "A" 1; rowObj "A" 2; panelObj "cpu" "graph" 3 (mkGridPos 4 12 0 0)].

(** The rows [A] and [B], each followed by one panel. *)
Definition ab_heap : Heap :=
  heap_of [rowObj "A" 1; panelObj "cpu" "graph" 2 (mkGridPos 4 12 0 0);
           rowObj "B" 3; panelObj "mem" "graph" 4 (mkGridPos 4 12 0 0)].


(** A row marker titled [none], followed by a panel. *)
Definition none_heap : Heap :=
  heap_of [rowObj s_none 1; panelObj "cpu" "graph" 2 (mkGridPos 4 12 0 0)].

End Examples.

(** * Proofs *)

#[local] Set Warnings "-clear-no-such-hyp".

(** * Proofs *)

(** ** The computation monad *)

Lemma bind_Some {A B} (m : M A) (k : A → M B) σ b σ' :
  bind m k σ = Some (b, σ') ↔
  ∃ a σ1, m σ = Some (a, σ1) ∧ k a σ1 = Some (b, σ').
Proof.
  unfold bind. destruct (m σ) as [[a σ1]|] eqn:E.
  - split; [eauto|]. intros (a' & σ1' & [= -> ->] & ?). done.
  - split; [done|]. intros (? & ? & [=] & _).
Qed.

Lemma ret_Some {A} (a b : A) σ σ' : ret a σ = Some (b, σ') ↔ a = b ∧ σ = σ'.
Proof. unfold ret. naive_solver. Qed.

Lemma get_heap_Some σ τ σ' : get_heap σ = Some (τ, σ') ↔ τ = σ ∧ σ' = σ.
Proof. unfold get_heap. naive_solver. Qed.

Lemma liftO_Some {A} (o : option A) a σ σ' :
  liftO o σ = Some (a, σ') ↔ o = Some a ∧ σ' = σ.
Proof. destruct o; unfold liftO, ret, panic; naive_solver. Qed.

Lemma assign_Some p k v σ u σ' :
  assign p k v σ = Some (u, σ') ↔
  ∃ l, p = Some l ∧ σ' = <[l := <[k := v]> (deref σ l)]> σ.
Proof.
  unfold assign. destruct p as [l|], u.
  - split; [intros [= <-]; eauto | intros (? & [= <-] & ->); done].
  - split; [done | intros (? & [=] & _)].
Qed.

(** Decompose a hypothesis that a computation returned. *)
Ltac inv_M :=
  repeat match goal with
  | H : bind _ _ _ = Some _ |- _ =>
      apply bind_Some in H; destruct H as (? & ? & ? & H)
  | H : ret _ _ = Some _ |- _ => apply ret_Some in H; destruct H as [? ?]
  | H : get_heap _ = Some _ |- _ => apply get_heap_Some in H; destruct H as [? ?]
  | H : liftO _ _ = Some _ |- _ => apply liftO_Some in H; destruct H as [? ?]
  | H : assign _ _ _ _ = Some _ |- _ =>
      apply assign_Some in H; destruct H as (? & ? & ?)
  | H : panic _ = Some _ |- _ => discriminate H
  | H : (_, _) = (_, _) |- _ => injection H as ? ?
  end; subst.

Lemma foldM_app {A S} (f : S → A → M S) s l1 l2 σ :
  foldM f s (l1 ++ l2) σ =
  match foldM f s l1 σ with
  | Some (s1, σ1) => foldM f s1 l2 σ1
  | None => None
  end.
Proof.
  revert s σ. induction l1 as [|a l1 IH]; intros s σ; simpl; [done|].
  unfold bind. destruct (f s a σ) as [[s' σ']|]; [apply IH | done].
Qed.

(** Loop invariants: [I] relates the elements visited so far, the loop
    state and the heap. *)
Lemma foldM_inv {A S} (f : S → A → M S) (I : list A → S → Heap → Prop) l :
  ∀ s σ s' σ',
  I [] s σ →
  (∀ done a s σ s' σ',
     (∃ rest, l = done ++ a :: rest) →
     I done s σ → f s a σ = Some (s', σ') → I (done ++ [a]) s' σ') →
  foldM f s l σ = Some (s', σ') → I l s' σ'.
Proof.
  intros s σ s' σ' H0 Hstep.
  assert (G : ∀ done rest s σ, l = done ++ rest → I done s σ →
              foldM f s rest σ = Some (s', σ') → I l s' σ').
  { intros done rest. revert done.
    induction rest as [|a rest IH]; intros done s0 σ0 El Hd Hf; simpl in Hf.
    - inv_M. by rewrite app_nil_r.
    - inv_M. apply (IH (done ++ [a])) in Hf; [done | by rewrite <- app_assoc |].
      eapply Hstep; eauto. }
  intros Hf. by apply (G [] l s σ).
Qed.

(** ** Reading and writing panels *)

Lemma deref_insert σ l o l' :
  deref (<[l := o]> σ) l' = if decide (l = l') then o else deref σ l'.
Proof.
  unfold deref. rewrite lookup_insert. by destruct (decide (l = l')).
Qed.

Lemma field_ok_assign σ l k v p k' :
  field_ok (<[l := <[k := v]> (deref σ l)]> σ) p k' =
  if decide (p = Some l ∧ k = k') then Some v else field_ok σ p k'.
Proof.
  destruct (decide (p = Some l ∧ k = k')) as [[-> ->]|Hn].
  - unfold field_ok. rewrite deref_insert, decide_True by done.
    by rewrite lookup_insert_eq.
  - destruct p as [l'|]; [|done]. unfold field_ok. rewrite deref_insert.
    destruct (decide (l = l')) as [->|Hl]; [|done].
    rewrite lookup_insert_ne; [done | naive_solver].
Qed.

Lemma field_assign σ l k v p k' :
  field (<[l := <[k := v]> (deref σ l)]> σ) p k' =
  if decide (p = Some l ∧ k = k') then v else field σ p k'.
Proof. unfold field. rewrite field_ok_assign. by case_decide. Qed.

Lemma field_assign_other_key σ l k v p k' :
  k ≠ k' → field (<[l := <[k := v]> (deref σ l)]> σ) p k' = field σ p k'.
Proof. intros. rewrite field_assign. case_decide; naive_solver. Qed.

Lemma field_assign_other_panel σ l k v p k' :
  p ≠ Some l → field (<[l := <[k := v]> (deref σ l)]> σ) p k' = field σ p k'.
Proof. intros. rewrite field_assign. case_decide; naive_solver. Qed.

Lemma field_assign_same σ l k v :
  field (<[l := <[k := v]> (deref σ l)]> σ) (Some l) k = v.
Proof. rewrite field_assign. case_decide; naive_solver. Qed.

Lemma key_assign σ l k v p :
  k ≠ s_title → k ≠ s_type →
  key (<[l := <[k := v]> (deref σ l)]> σ) p = key σ p.
Proof. intros. unfold key. by rewrite !field_assign_other_key. Qed.

Lemma Equals_key σ p q : Equals σ p q = bool_decide (key σ p = key σ q).
Proof.
  unfold Equals, key, bytes_Equal.
  rewrite <- bool_decide_and. apply bool_decide_ext.
  split; [intros [-> ->]; done | intros [= -> ->]; done].
Qed.

Lemma Equals_true σ p q : Equals σ p q = true ↔ key σ p = key σ q.
Proof. rewrite Equals_key. apply bool_decide_eq_true. Qed.

Lemma Equals_false σ p q : Equals σ p q = false ↔ key σ p ≠ key σ q.
Proof. rewrite Equals_key. apply bool_decide_eq_false. Qed.

Lemma Equals_refl σ p : Equals σ p p = true.
Proof. by apply Equals_true. Qed.

Lemma Equals_ext σ σ' p q :
  key σ' p = key σ p → key σ' q = key σ q → Equals σ' p q = Equals σ p q.
Proof. intros Hp Hq. by rewrite !Equals_key, Hp, Hq. Qed.

(** ** The scan of [MergePanels] *)

(** The loop over the indices of [res] is the recursion over its slots. *)
Lemma overwriteStep_at p2 pre r rest m σ :
  overwriteStep p2 (pre ++ r :: rest, m) (length pre) σ =
  if Equals σ r p2 then
    match assign p2 s_gridPos (GridPosRaw σ r) σ with
    | Some (_, σ1) =>
        match assign p2 s_id (IDRaw σ r) σ1 with
        | Some (_, σ2) => Some (((pre ++ [p2]) ++ rest, true), σ2)
        | None => None
        end
    | None => None
    end
  else Some (((pre ++ [r]) ++ rest, m), σ).
Proof.
  unfold overwriteStep, bind, get_heap, ret.
  rewrite list_lookup_middle by done. unfold default, id.
  destruct (Equals σ r p2); [|by rewrite <- app_assoc].
  destruct (assign p2 s_gridPos (GridPosRaw σ r) σ) as [[[] σ1]|]; [|done].
  destruct (assign p2 s_id (IDRaw σ r) σ1) as [[[] σ2]|]; [|done].
  rewrite insert_app_r_alt by done. rewrite Nat.sub_diag. simpl.
  by rewrite <- app_assoc.
Qed.

Lemma overwrite_loop_eq p2 suf : ∀ pre m σ,
  foldM (overwriteStep p2) (pre ++ suf, m) (seq (length pre) (length suf)) σ =
  (let* (suf', m') := overwriteAll p2 suf in ret (pre ++ suf', m || m')) σ.
Proof.
  induction suf as [|r rest IH]; intros pre m σ.
  - simpl. unfold bind, ret. by rewrite orb_false_r.
  - assert (IH' : ∀ x m σ,
      foldM (overwriteStep p2) ((pre ++ [x]) ++ rest, m)
        (seq (S (length pre)) (length rest)) σ =
      match overwriteAll p2 rest σ with
      | Some ((rest', m'), σ') => Some ((pre ++ x :: rest', m || m'), σ')
      | None => None
      end).
    { intros x m0 σ0. specialize (IH (pre ++ [x]) m0 σ0).
      rewrite length_app, Nat.add_1_r in IH. rewrite IH. unfold bind, ret.
      destruct (overwriteAll p2 rest σ0) as [[[rest' m'] σ']|]; [|done].
      by rewrite <- app_assoc. }
    cbn [length seq foldM]. unfold bind at 1. rewrite overwriteStep_at.
    cbn [overwriteAll]. unfold bind, get_heap, ret.
    destruct (Equals σ r p2) eqn:E.
    + destruct (assign p2 s_gridPos (GridPosRaw σ r) σ) as [[[] σ1]|]; [|done].
      destruct (assign p2 s_id (IDRaw σ r) σ1) as [[[] σ2]|]; [|done].
      rewrite IH'.
      destruct (overwriteAll p2 rest σ2) as [[[rest' m'] σ3]|]; [|done].
      by rewrite orb_true_r.
    + rewrite IH'.
      by destruct (overwriteAll p2 rest σ) as [[[rest' m'] σ3]|].
Qed.

Lemma overwrite_loop p2 res σ :
  foldM (overwriteStep p2) (res, false) (seq 0 (length res)) σ =
  overwriteAll p2 res σ.
Proof.
  pose proof (overwrite_loop_eq p2 res [] false σ) as E. simpl in E.
  rewrite E. unfold bind.
  destruct (overwriteAll p2 res σ) as [[[res' m'] σ']|]; done.
Qed.

Lemma key_of_fields σ σ' p :
  field σ' p s_title = field σ p s_title →
  field σ' p s_type = field σ p s_type →
  key σ' p = key σ p.
Proof. unfold key. by intros -> ->. Qed.

Lemma overwriteAll_spec p2 res : ∀ σ res' m σ',
  overwriteAll p2 res σ = Some ((res', m), σ') →
  res' = (λ r, if Equals σ r p2 then p2 else r) <$> res ∧
  (m = true ↔ ∃ r, r ∈ res ∧ Equals σ r p2 = true) ∧
  (m = true → p2 ≠ nilPanel) ∧
  (∀ q k, q ≠ p2 → field_ok σ' q k = field_ok σ q k) ∧
  (∀ k, k ≠ s_gridPos → k ≠ s_id → field_ok σ' p2 k = field_ok σ p2 k) ∧
  (∀ k, k = s_gridPos ∨ k = s_id →
     field σ' p2 k = field σ (default p2 (last (sources σ p2 res))) k).
Proof.
  induction res as [|r rest IH]; intros σ res' m σ' Hrun; simpl in Hrun.
  - inv_M. split_and!; try done.
    split; [done|]. intros (r & Hr & _). by apply elem_of_nil in Hr.
  - unfold bind, get_heap, ret in Hrun. destruct (Equals σ r p2) eqn:E.
    + unfold assign in Hrun. destruct p2 as [l|]; [|done].
      set (σ1 := <[l := <[s_gridPos := GridPosRaw σ r]> (deref σ l)]> σ) in *.
      set (σ2 := <[l := <[s_id := IDRaw σ r]> (deref σ1 l)]> σ1) in *.
      destruct (overwriteAll (Some l) rest σ2) as [[[rest' m'] σ3]|] eqn:ER;
        [|done].
      injection Hrun as <- <- <-.
      assert (Hk : ∀ q, key σ2 q = key σ q).
      { intros q. subst σ2 σ1. by rewrite !key_assign. }
      assert (HE : ∀ q, Equals σ2 q (Some l) = Equals σ q (Some l)).
      { intros q. by apply Equals_ext. }
      apply IH in ER as (Hres & Hm & Hnil & Hfr & Hown & Hsrc).
      assert (HS : sources σ2 (Some l) rest = sources σ (Some l) rest).
      { unfold sources. apply list_filter_iff. intros q. by rewrite HE. }
      split_and!.
      * simpl. rewrite E. f_equal. rewrite Hres.
        apply list_fmap_ext. intros ? q _. by rewrite HE.
      * split; [|done]. intros _. exists r. split; [left | done].
      * done.
      * intros q k Hq. rewrite Hfr by done. subst σ2 σ1.
        rewrite !field_ok_assign. repeat case_decide; naive_solver.
      * intros k Hg Hi. rewrite Hown by done. subst σ2 σ1.
        rewrite !field_ok_assign. repeat case_decide; naive_solver.
      * intros k Hk'. rewrite Hsrc by done. rewrite HS.
        unfold sources at 2. rewrite filter_cons. fold (sources σ (Some l) rest).
        assert (Hin : ∀ q, q ∈ sources σ (Some l) rest → q ≠ Some l).
        { intros q Hq. apply list_elem_of_filter in Hq. naive_solver. }
        destruct (last (sources σ (Some l) rest)) as [q|] eqn:EL.
        -- assert (q ≠ Some l) as Hq.
           { apply Hin. apply last_Some in EL as [l' ->]. set_solver. }
           assert (field σ2 q k = field σ q k) as Hq2.
           { subst σ2 σ1. by rewrite !field_assign_other_panel. }
           simpl. rewrite Hq2.
           case_decide; [|by rewrite EL].
           rewrite last_cons, EL. done.
        -- apply last_None in EL. rewrite EL. simpl.
           case_decide as Hd.
           ++ simpl. destruct Hd as [_ Hd]. subst σ2 σ1.
              destruct Hk' as [-> | ->].
              ** rewrite field_assign_other_key by done.
                 by rewrite field_assign_same.
              ** by rewrite field_assign_same.
           ++ simpl.
              assert (r = Some l) as ->
                by (destruct (decide (r = Some l)); naive_solver).
              subst σ2 σ1. destruct Hk' as [-> | ->].
              ** rewrite field_assign_other_key by done.
                 by rewrite field_assign_same.
              ** by rewrite field_assign_same.
    + destruct (overwriteAll p2 rest σ) as [[[rest' m'] σ3]|] eqn:ER; [|done].
      injection Hrun as <- <- <-.
      apply IH in ER as (Hres & Hm & Hnil & Hfr & Hown & Hsrc).
      split_and!; try done.
      * simpl. by rewrite E, Hres.
      * rewrite Hm. split.
        -- intros (q & Hq & HEq). exists q. split; [by right | done].
        -- intros (q & Hq & HEq). apply elem_of_cons in Hq as [->|Hq];
             [congruence | eauto].
      * intros k Hk'. rewrite Hsrc by done. unfold sources at 2.
        rewrite filter_cons. fold (sources σ p2 rest).
        case_decide as Hd; [destruct Hd; congruence | done].
Qed.

Lemma overwriteAll_key p2 res σ res' m σ' :
  overwriteAll p2 res σ = Some ((res', m), σ') → ∀ p, key σ' p = key σ p.
Proof.
  intros Hrun p. apply overwriteAll_spec in Hrun as (_ & _ & _ & Hfr & Hown & _).
  apply key_of_fields; unfold field.
  - destruct (decide (p = p2)) as [->|]; [by rewrite Hown | by rewrite Hfr].
  - destruct (decide (p = p2)) as [->|]; [by rewrite Hown | by rewrite Hfr].
Qed.

Lemma overwriteAll_total p2 res : ∀ σ,
  p2 ≠ nilPanel → is_Some (overwriteAll p2 res σ).
Proof.
  induction res as [|r rest IH]; intros σ Hp; simpl; [by eexists|].
  unfold bind, get_heap, ret. destruct p2 as [l|]; [|done].
  destruct (Equals σ r (Some l)).
  - unfold assign.
    destruct (IH (<[l:=<[s_id:=IDRaw σ r]>
                (deref (<[l:=<[s_gridPos:=GridPosRaw σ r]> (deref σ l)]> σ) l)]>
                (<[l:=<[s_gridPos:=GridPosRaw σ r]> (deref σ l)]> σ)) Hp)
      as [[[rest' m'] σ'] ->]. by eexists.
  - destruct (IH σ Hp) as [[[rest' m'] σ'] ->]. by eexists.
Qed.

Lemma overwriteAll_length p2 res σ res' m σ' :
  overwriteAll p2 res σ = Some ((res', m), σ') → length res' = length res.
Proof.
  intros Hrun. apply overwriteAll_spec in Hrun as (-> & _).
  by rewrite length_fmap.
Qed.

Section MergeProofs.
Context `{!JSON}.

Lemma mergeStep_eq maxY res p2 σ :
  mergeStep (maxY, res) p2 σ =
  match overwriteAll p2 res σ with
  | Some ((res', true), σ') => Some ((maxY, res'), σ')
  | Some ((res', false), σ') =>
      match assign p2 s_gridPos (Some (marshal_GridPos (defaultRect maxY))) σ' with
      | Some (_, σ'') => Some ((add64 maxY 2, res' ++ [p2]), σ'')
      | None => None
      end
  | None => None
  end.
Proof.
  unfold mergeStep, bind. rewrite overwrite_loop.
  destruct (overwriteAll p2 res σ) as [[[res' []] σ']|]; done.
Qed.

Lemma mergeStep_key maxY res p2 σ maxY' res' σ' :
  mergeStep (maxY, res) p2 σ = Some ((maxY', res'), σ') →
  ∀ p, key σ' p = key σ p.
Proof.
  rewrite mergeStep_eq. intros Hrun p.
  destruct (overwriteAll p2 res σ) as [[[res1 m] σ1]|] eqn:E; [|done].
  pose proof (overwriteAll_key _ _ _ _ _ _ E p) as Hk.
  destruct m; [by injection Hrun as <- <- <-|].
  destruct (assign p2 s_gridPos _ σ1) as [[[] σ2]|] eqn:E2; [|done].
  injection Hrun as <- <- <-. apply assign_Some in E2 as (l & -> & ->).
  by rewrite key_assign.
Qed.

(** The first loop of [MergePanels] decodes every rectangle, leaves the
    heap alone and copies [ps1]. *)
Lemma baseLoop_spec ps : ∀ m0 acc σ m res σ',
  foldM baseStep (m0, acc) ps σ = Some ((m, res), σ') ↔
  ∃ gps, Forall2 (λ p g, Panel_GridPos σ p = Some g) ps gps ∧
         m = foldl (λ m g, Z.max m (add64 (Y g) (H g))) m0 gps ∧
         res = acc ++ ps ∧ σ' = σ.
Proof.
  induction ps as [|p ps IH]; intros m0 acc σ m res σ'; simpl.
  - rewrite ret_Some. split.
    + intros [[= <- <-] <-]. exists []. by rewrite app_nil_r.
    + intros (gps & Hg & -> & -> & ->). apply Forall2_nil_inv_l in Hg as ->.
      by rewrite app_nil_r.
  - rewrite bind_Some. split.
    + intros ([m1 acc1] & σ1 & Hs & Hrest).
      unfold baseStep, GridPosM, bind, get_heap in Hs.
      destruct (Panel_GridPos σ p) as [g|] eqn:Eg; [|done].
      simpl in Hs. injection Hs as <- <- <-.
      apply IH in Hrest as (gps & Hg & -> & -> & ->).
      exists (g :: gps).
      split_and!; [by constructor | | by rewrite <- app_assoc | done].
      simpl. f_equal. destruct (Z.ltb_spec m0 (add64 (Y g) (H g))); lia.
    + intros (gps & Hg & -> & -> & ->).
      apply Forall2_cons_inv_l in Hg as (g & gps' & Hg & Hgs & ->).
      eexists (_, _), σ. split.
      * unfold baseStep, GridPosM, bind, get_heap. rewrite Hg. simpl. reflexivity.
      * apply IH. exists gps'. split_and!; [done | | by rewrite <- app_assoc | done].
        simpl. f_equal. destruct (Z.ltb_spec m0 (add64 (Y g) (H g))); lia.
Qed.

Lemma MergePanels_eq ps1 ps2 σ res σ' :
  MergePanels ps1 ps2 σ = Some (res, σ') ↔
  ∃ gps maxY',
    Forall2 (λ p g, Panel_GridPos σ p = Some g) ps1 gps ∧
    foldM mergeStep (maxBottom gps, ps1) ps2 σ = Some ((maxY', res), σ').
Proof.
  unfold MergePanels. rewrite bind_Some. split.
  - intros ([m r] & σ1 & Hb & Hrest). apply baseLoop_spec in Hb as (gps & Hg & -> & -> & ->).
    apply bind_Some in Hrest as ([m' r'] & σ2 & Hm & Hr). inv_M.
    exists gps, m'. split; [done|]. by rewrite app_nil_l in Hm.
  - intros (gps & maxY' & Hg & Hm).
    eexists (_, _), σ. split.
    + apply baseLoop_spec. exists gps. split_and!; try done.
    + rewrite app_nil_l. apply bind_Some. eexists (_, _), _. split; [exact Hm|].
      done.
Qed.

(** When every incoming panel is a non-nil map whose key is the key of a
    base slot, no panel is appended. *)
Lemma mergeLoop_matched base qs : ∀ maxY res σ,
  Forall2 (λ r b, key σ r = key σ b) res base →
  Forall (λ q, q ≠ nilPanel ∧ ∃ b, b ∈ base ∧ key σ b = key σ q) qs →
  ∃ res' σ', foldM mergeStep (maxY, res) qs σ = Some ((maxY, res'), σ') ∧
             length res' = length res.
Proof.
  induction qs as [|q qs IH]; intros maxY res σ Hres Hqs; cbn [foldM].
  - by exists res, σ.
  - apply Forall_cons in Hqs as [[Hq (b & Hb & Hkb)] Hqs].
    destruct (overwriteAll_total q res σ Hq) as [[[res1 m] σ1] E].
    pose proof (overwriteAll_key _ _ _ _ _ _ E) as Hk.
    pose proof (overwriteAll_spec _ _ _ _ _ _ E) as (Hres1 & Hm & _).
    assert (m = true) as ->.
    { apply Hm. apply list_elem_of_lookup in Hb as [i Hi].
      destruct (Forall2_lookup_r _ _ _ _ _ Hres Hi) as (r & Hr & Hkr).
      exists r. split; [by eapply list_elem_of_lookup_2|].
      apply Equals_true. congruence. }
    destruct (IH maxY res1 σ1) as (res' & σ' & Hrun & Hlen).
    + rewrite Hres1. apply Forall2_fmap_l.
      eapply Forall2_impl; [exact Hres|]. intros r b' Hrb. simpl.
      rewrite !Hk. destruct (Equals σ r q) eqn:Eq; [|done].
      apply Equals_true in Eq. congruence.
    + eapply Forall_impl; [exact Hqs|]. intros q' (Hq' & b' & Hb' & Hk').
      split; [done|]. exists b'. by rewrite !Hk.
    + exists res', σ'. split.
      * unfold bind. rewrite mergeStep_eq, E. exact Hrun.
      * rewrite Hlen, Hres1. by rewrite length_fmap.
Qed.

(** C7. Idempotence: merging a sequence of panels (non-nil maps whose
    [gridPos], when present, decodes) with itself returns, and returns
    exactly [len(ps)] panels: every panel matches a slot, none is
    appended. *)
Theorem MergePanels_self_length (ps : list Panel) (σ : Heap) :
  Forall (λ p, p ≠ nilPanel ∧ is_Some (Panel_GridPos σ p)) ps →
  ∃ res σ', MergePanels ps ps σ = Some (res, σ') ∧ length res = length ps.
Proof.
  intros Hps.
  assert (∃ gps, Forall2 (λ p g, Panel_GridPos σ p = Some g) ps gps) as [gps Hg].
  { induction ps as [|p ps IH]; [by exists []|].
    apply Forall_cons in Hps as [[_ [g Hg]] Hps].
    destruct (IH Hps) as [gps Hgps]. exists (g :: gps). by constructor. }
  destruct (mergeLoop_matched ps ps (maxBottom gps) ps σ) as (res & σ' & Hrun & Hlen).
  - by apply Forall_Forall2_diag, Forall_true.
  - apply Forall_forall. intros q Hq. split.
    + by apply (proj1 (Forall_forall _ _) Hps q Hq).
    + by exists q.
  - exists res, σ'. split; [|done]. apply MergePanels_eq. by exists gps, (maxBottom gps).
Qed.

End MergeProofs.

Lemma wrap64_add_l a b : wrap64 (wrap64 a + b) = wrap64 (a + b).
Proof.
  unfold wrap64.
  replace ((a + 2 ^ 63) mod 2 ^ 64 - 2 ^ 63 + b + 2 ^ 63)%Z
    with ((a + 2 ^ 63) mod 2 ^ 64 + b)%Z by lia.
  rewrite Zplus_mod_idemp_l. f_equal. f_equal. lia.
Qed.

Lemma wrap64_small z : (- 2 ^ 63 ≤ z < 2 ^ 63)%Z → wrap64 z = z.
Proof. intros Hz. unfold wrap64. rewrite Z.mod_small; lia. Qed.

Lemma add64_iter n m0 :
  add64 (Nat.iter n (λ m, add64 m 2) m0) 1 = wrap64 (m0 + 2 * Z.of_nat n + 1).
Proof.
  assert (G : ∀ c, wrap64 (Nat.iter n (λ m, add64 m 2) m0 + c)
                   = wrap64 (m0 + 2 * Z.of_nat n + c)).
  { induction n as [|n IH]; intros c.
    - simpl. f_equal. lia.
    - rewrite Nat.iter_succ. unfold add64 at 1. rewrite wrap64_add_l.
      replace (Nat.iter n (λ m, add64 m 2) m0 + 2 + c)%Z
        with (Nat.iter n (λ m, add64 m 2) m0 + (2 + c))%Z by lia.
      rewrite IH. f_equal. lia. }
  apply G.
Qed.

Lemma filter_none {A} (P : A → Prop) `{∀ x, Decision (P x)} (l : list A) :
  (∀ x, x ∈ l → ¬ P x) → filter P l = [].
Proof.
  intros Hno. destruct (filter P l) as [|x l'] eqn:E; [done|].
  assert (x ∈ filter P l) as Hx by (rewrite E; left).
  apply list_elem_of_filter in Hx as [HP Hx]. by apply Hno in Hx.
Qed.

Section MergeProofs2.
Context `{!JSON}.

(** X24. One pass of the scan for an incoming panel [q] that matches the
    slots [i < j], [j] being the last matching slot and holding an object
    other than [q] itself: every matching slot then holds the one object
    [q], whose [gridPos] and [id] are those the slot [j] had before the
    pass; the other slots are untouched and nothing is appended. *)
Theorem multi_match_last_slot_wins
    (maxY : Z) (res : list Panel) (q : Panel) (σ : Heap)
    (maxY' : Z) (res' : list Panel) (σ' : Heap) (i j : nat) (ri rj : Panel) :
  mergeStep (maxY, res) q σ = Some ((maxY', res'), σ') →
  res !! i = Some ri → res !! j = Some rj → i < j →
  Equals σ ri q = true → Equals σ rj q = true →
  (∀ j' r, j < j' → res !! j' = Some r → Equals σ r q = false) →
  rj ≠ q →
  res' = (λ r, if Equals σ r q then q else r) <$> res ∧
  res' !! i = Some q ∧ res' !! j = Some q ∧
  maxY' = maxY ∧
  GridPosRaw σ' q = GridPosRaw σ rj ∧ IDRaw σ' q = IDRaw σ rj.
Proof.
  intros Hrun Hi Hj Hij Ei Ej Hlast Hne. rewrite mergeStep_eq in Hrun.
  destruct (overwriteAll q res σ) as [[[res1 m] σ1]|] eqn:E; [|done].
  pose proof (overwriteAll_spec _ _ _ _ _ _ E) as (Hres1 & Hm & _ & _ & _ & Hsrc).
  assert (m = true) as ->.
  { apply Hm. exists ri. split; [by eapply list_elem_of_lookup_2 | done]. }
  injection Hrun as <- <- <-.
  assert (last (sources σ q res) = Some rj) as Hl.
  { rewrite <- (take_drop_middle res j rj Hj). unfold sources.
    rewrite filter_app, filter_cons.
    rewrite decide_True by done.
    assert (filter (λ r, Equals σ r q = true ∧ r ≠ q) (drop (S j) res) = []) as ->.
    { apply filter_none. intros r Hr [Er _].
      apply list_elem_of_lookup in Hr as [n Hn]. rewrite lookup_drop in Hn.
      rewrite (Hlast (S j + n) r) in Er; [done | lia | done]. }
    by rewrite last_snoc. }
  split_and!; try done.
  - by rewrite Hres1, list_lookup_fmap, Hi; simpl; rewrite Ei.
  - by rewrite Hres1, list_lookup_fmap, Hj; simpl; rewrite Ej.
  - unfold GridPosRaw. rewrite Hsrc by auto. by rewrite Hl.
  - unfold IDRaw. rewrite Hsrc by auto. by rewrite Hl.
Qed.

(** What a run of the second loop appends: the number of appended panels
    and the running counter. *)
Lemma mergeLoop_prefix qs : ∀ maxY res σ maxY' res' σ',
  foldM mergeStep (maxY, res) qs σ = Some ((maxY', res'), σ') →
  (∀ p, key σ' p = key σ p) ∧
  (∃ n, length res' = length res + n ∧ n ≤ length qs ∧
        maxY' = Nat.iter n (λ m, add64 m 2) maxY) ∧
  (∀ r, r ∈ res' → ∃ x, (x ∈ res ∨ x ∈ qs) ∧ key σ r = key σ x).
Proof.
  induction qs as [|q qs IH]; intros maxY res σ maxY' res' σ' Hrun;
    cbn [foldM] in Hrun.
  - inv_M. split_and!; [done | exists 0; simpl; split_and!; [lia|lia|done] |].
    intros r Hr. exists r. auto.
  - apply bind_Some in Hrun as ([m1 res1] & σ1 & Hs & Hrest).
    pose proof (mergeStep_key _ _ _ _ _ _ _ Hs) as Hk.
    apply IH in Hrest as (Hk' & (n & Hlen & Hn & Hmax) & Hin).
    rewrite mergeStep_eq in Hs.
    destruct (overwriteAll q res σ) as [[[res2 m] σ2]|] eqn:E; [|done].
    pose proof (overwriteAll_spec _ _ _ _ _ _ E) as (Hres2 & _).
    assert (Hin2 : ∀ r, r ∈ res2 → ∃ x, (x ∈ res ∨ x = q) ∧ key σ r = key σ x).
    { intros r Hr. rewrite Hres2 in Hr. apply list_elem_of_fmap in Hr as (r0 & -> & Hr0).
      destruct (Equals σ r0 q); [exists q; auto | exists r0; auto]. }
    split_and!.
    + intros p. by rewrite Hk', Hk.
    + destruct m.
      * injection Hs as <- <- <-. exists n. split_and!; [|simpl; lia|done].
        rewrite Hlen, Hres2, length_fmap. done.
      * destruct (assign q s_gridPos _ σ2) as [[[] σ3]|]; [|done].
        injection Hs as <- <- <-. exists (S n). split_and!; [|simpl; lia|].
        -- rewrite Hlen, length_app, Hres2, length_fmap. simpl. lia.
        -- rewrite Hmax. by rewrite Nat.iter_succ_r.
    + intros r Hr. apply Hin in Hr as (x & Hx & Hkx).
      rewrite !Hk in Hkx.
      destruct Hx as [Hx|Hx]; [|exists x; split; [right; by right | done]].
      assert (x ∈ res2 ∨ x = q) as [Hx2| ->].
      { destruct m.
        - injection Hs as <- <- <-. auto.
        - destruct (assign q s_gridPos _ σ2) as [[[] σ3]|]; [|done].
          injection Hs as <- <- <-. apply elem_of_app in Hx as [?|Hx]; [auto|].
          apply list_elem_of_singleton in Hx. auto. }
      * apply Hin2 in Hx2 as (y & [Hy | ->] & Hky).
        -- exists y. split; [by left | congruence].
        -- exists q. split; [right; by left | congruence].
      * exists q. split; [right; by left | done].
Qed.

(** A slot holding [q] and the fields of [q] survive the steps for panels
    that do not match [q]. *)
Lemma mergeLoop_keeps qs : ∀ maxY res σ maxY' res' σ' pos q,
  foldM mergeStep (maxY, res) qs σ = Some ((maxY', res'), σ') →
  res !! pos = Some q →
  (∀ q', q' ∈ qs → Equals σ q' q = false) →
  res' !! pos = Some q ∧ ∀ k, field σ' q k = field σ q k.
Proof.
  induction qs as [|p2 qs IH]; intros maxY res σ maxY' res' σ' pos q Hrun Hpos Hno;
    cbn [foldM] in Hrun.
  - by inv_M.
  - apply bind_Some in Hrun as ([m1 res1] & σ1 & Hs & Hrest).
    pose proof (mergeStep_key _ _ _ _ _ _ _ Hs) as Hk.
    assert (Hp2 : Equals σ p2 q = false) by (apply Hno; by left).
    assert (Hne : q ≠ p2).
    { intros ->. by rewrite Equals_refl in Hp2. }
    assert (Hq2 : Equals σ q p2 = false).
    { apply Equals_false. apply Equals_false in Hp2. congruence. }
    rewrite mergeStep_eq in Hs.
    destruct (overwriteAll p2 res σ) as [[[res2 m] σ2]|] eqn:E; [|done].
    pose proof (overwriteAll_spec _ _ _ _ _ _ E) as (Hres2 & _ & _ & Hfr & _).
    assert (Hpos2 : res2 !! pos = Some q).
    { by rewrite Hres2, list_lookup_fmap, Hpos; simpl; rewrite Hq2. }
    assert (Hf2 : ∀ k, field σ2 q k = field σ q k).
    { intros k. unfold field. by rewrite Hfr. }
    assert (res1 !! pos = Some q ∧ ∀ k, field σ1 q k = field σ q k) as [Hpos1 Hf1].
    { destruct m.
      - by injection Hs as <- <- <-.
      - destruct (assign p2 s_gridPos _ σ2) as [[[] σ3]|] eqn:E3; [|done].
        injection Hs as <- <- <-. apply assign_Some in E3 as (l & -> & ->).
        split; [by apply lookup_app_l_Some|].
        intros k. by rewrite field_assign_other_panel. }
    destruct (IH _ _ _ _ _ _ pos q Hrest Hpos1) as [Hfin Hff].
    + intros q' Hq'. rewrite (Equals_ext σ σ1) by apply Hk.
      apply Hno. by right.
    + split; [done|]. intros k. by rewrite Hff.
Qed.

(** X23. A panel [q] of [incoming] that matches no panel of [base] and
    no other panel of [incoming] is in the output at a position after the
    base slots, [n] panels having been appended before it, and it holds
    the default rectangle [{x:0, y:maxBottom+2n+1, w:6, h:2}], where
    [maxBottom] is the largest [y+h] of the base rectangles (0 at
    least). *)
Theorem unmatched_append
    (base incoming : list Panel) (σ : Heap) (res : list Panel) (σ' : Heap)
    (k : nat) (q : Panel) :
  MergePanels base incoming σ = Some (res, σ') →
  incoming !! k = Some q →
  (∀ p, p ∈ base → Equals σ p q = false) →
  (∀ j q', incoming !! j = Some q' → j ≠ k → Equals σ q' q = false) →
  ∃ gps n,
    Forall2 (λ p g, Panel_GridPos σ p = Some g) base gps ∧
    n ≤ k ∧
    res !! (length base + n) = Some q ∧
    GridPosRaw σ' q =
      Some (marshal_GridPos
              {| H := 2; W := 6; X := 0;
                 Y := wrap64 (maxBottom gps + 2 * Z.of_nat n + 1) |}).
Proof.
  intros Hrun Hk Hbase Hinc.
  apply MergePanels_eq in Hrun as (gps & maxY' & Hg & Hrun).
  rewrite <- (take_drop_middle incoming k q Hk) in Hrun.
  rewrite foldM_app in Hrun.
  destruct (foldM mergeStep (maxBottom gps, base) (take k incoming) σ)
    as [[[m1 res1] σ1]|] eqn:E1; [|done].
  cbn [foldM] in Hrun.
  apply bind_Some in Hrun as ([m2 res2] & σ2 & Hs & Hrest).
  apply mergeLoop_prefix in E1 as (Hk1 & (n & Hlen & Hn & Hmax) & Hin).
  assert (Hnone : ∀ r, r ∈ res1 → Equals σ1 r q = false).
  { intros r Hr. apply Hin in Hr as (x & Hx & Hkx).
    rewrite (Equals_ext σ σ1) by apply Hk1.
    assert (Equals σ x q = false) as Hxq.
    { destruct Hx as [Hx|Hx]; [by apply Hbase|].
      apply list_elem_of_lookup in Hx as [j Hj].
      apply lookup_take_Some in Hj as [Hj Hlt].
      apply (Hinc j); [done | lia]. }
    apply Equals_false. apply Equals_false in Hxq. congruence. }
  pose proof (mergeStep_key _ _ _ _ _ _ _ Hs) as Hk2.
  rewrite mergeStep_eq in Hs.
  destruct (overwriteAll q res1 σ1) as [[[res1' m] σ1']|] eqn:E; [|done].
  pose proof (overwriteAll_spec _ _ _ _ _ _ E) as (Hres1' & Hm & _).
  assert (m = false) as ->.
  { destruct m; [|done]. destruct (proj1 Hm eq_refl) as (r & Hr & Er).
    by rewrite Hnone in Er. }
  assert (res1' = res1) as ->.
  { rewrite Hres1'. rewrite <- (list_fmap_id res1) at 2.
    apply list_fmap_ext. intros ? r Hr. simpl.
    rewrite Hnone; [done | by eapply list_elem_of_lookup_2]. }
  destruct (assign q s_gridPos _ σ1') as [[[] σ3]|] eqn:E3; [|done].
  injection Hs as <- <- <-. apply assign_Some in E3 as (l & -> & ->).
  destruct (mergeLoop_keeps _ _ _ _ _ _ _ (length base + n) (Some l) Hrest)
    as [Hpos Hf].
  - rewrite <- Hlen. by rewrite lookup_app_r, Nat.sub_diag.
  - intros q' Hq'. rewrite (Equals_ext σ).
    + apply list_elem_of_lookup in Hq' as [j Hj]. rewrite lookup_drop in Hj.
      apply (Hinc (S k + j)); [done | lia].
    + by rewrite Hk2, Hk1.
    + by rewrite Hk2, Hk1.
  - exists gps, n. split_and!; [done | | done |].
    + rewrite length_take in Hn. lia.
    + unfold GridPosRaw. rewrite Hf, field_assign_same. unfold defaultRect.
      by rewrite Hmax, add64_iter.
Qed.

End MergeProofs2.

Section RepackArith.
#[local] Open Scope Z_scope.

(** ** The repacking pass *)




Lemma placeAll_same_size st gs :
  Forall2 (λ g' g, W g' = W g ∧ H g' = H g) (placeAll st gs) gs.
Proof.
  revert st. induction gs as [|g gs IH]; intros st; simpl; [constructor|].
  constructor; [done | apply IH].
Qed.

Lemma place_new_row st g :
  maxWidth < add64 (currentRowWidth st) (W g) →
  place st g =
  ({| H := H g; W := W g; X := 0;
      Y := add64 (currentY st) (currentRowMaxBottom st) |},
   {| currentY := add64 (currentY st) (currentRowMaxBottom st);
      currentRowWidth := add64 0 (W g);
      currentRowMaxBottom := if 0 <? H g then H g else 0 |}).
Proof.
  intros Hlt. unfold place, openRow.
  destruct (Z.ltb_spec maxWidth (add64 (currentRowWidth st) (W g))); [done | lia].
Qed.

Lemma place_same_row st g :
  add64 (currentRowWidth st) (W g) ≤ maxWidth →
  place st g =
  ({| H := H g; W := W g; X := currentRowWidth st; Y := currentY st |},
   {| currentY := currentY st;
      currentRowWidth := add64 (currentRowWidth st) (W g);
      currentRowMaxBottom :=
        if currentRowMaxBottom st <? H g then H g
        else currentRowMaxBottom st |}).
Proof.
  intros Hle. unfold place, openRow.
  destruct (Z.ltb_spec maxWidth (add64 (currentRowWidth st) (W g))); [lia | done].
Qed.


Section RepackProofs.
Context `{!JSON}.

Lemma repackLoop_spec res : ∀ placed0 st σ placed st' σ',
  foldM repackStep (placed0, st) res σ = Some ((placed, st'), σ') →
  ∃ gs, length gs = length res ∧ placed = placed0 ++ placeAll st gs.
Proof.
  induction res as [|p res IH]; intros placed0 st σ placed st' σ' Hrun;
    cbn [foldM] in Hrun.
  - inv_M. exists []. by rewrite app_nil_r.
  - apply bind_Some in Hrun as ([pl1 st1] & σ1 & Hs & Hrest).
    unfold repackStep, GridPosM, bind, get_heap, liftO in Hs.
    destruct (Panel_GridPos σ p) as [g|]; [|done]. unfold ret at 1 in Hs.
    destruct (place st g) as [g' st2] eqn:Ep.
    destruct (assign p s_gridPos _ σ) as [[[] σ2]|]; [|done].
    injection Hs as <- <- <-.
    apply IH in Hrest as (gs & Hlen & ->).
    exists (g :: gs). split; [simpl; lia|].
    cbn [placeAll]. rewrite Ep. rewrite <- app_assoc. reflexivity.
Qed.

End RepackProofs.

End RepackArith.

(** ** Heaps that grow *)

Lemma stable_refl ks σ : stable ks σ σ.
Proof. split; [done | auto]. Qed.

Lemma stable_trans ks σ1 σ2 σ3 :
  stable ks σ1 σ2 → stable ks σ2 σ3 → stable ks σ1 σ3.
Proof.
  intros [Hd1 Hf1] [Hd2 Hf2]. split; [set_solver|].
  intros l k Hl Hk. rewrite Hf2 by set_solver. by apply Hf1.
Qed.

Lemma stable_assign ks p k v σ u σ' :
  assign p k v σ = Some (u, σ') → k ∈ ks → stable ks σ σ'.
Proof.
  intros (l & -> & ->)%assign_Some Hk. split.
  - rewrite dom_insert. set_solver.
  - intros l' k' Hl' Hk'. rewrite deref_insert.
    destruct (decide (l = l')) as [->|]; [|done].
    rewrite lookup_insert_ne; [done | set_solver].
Qed.

Lemma stable_field_ok ks σ σ' p k :
  stable ks σ σ' → k ∉ ks → (∀ l, p = Some l → l ∈ dom σ) →
  field_ok σ' p k = field_ok σ p k.
Proof.
  intros [_ Hf] Hk Hp. destruct p as [l|]; [|done]. simpl. apply Hf; auto.
Qed.

Lemma stable_field ks σ σ' p k :
  stable ks σ σ' → k ∉ ks → (∀ l, p = Some l → l ∈ dom σ) →
  field σ' p k = field σ p k.
Proof. intros. unfold field. by erewrite stable_field_ok. Qed.

Lemma field_Some_allocated σ p k v :
  field σ p k = Some v → ∀ l, p = Some l → l ∈ dom σ.
Proof.
  intros Hf l ->. unfold field, field_ok, deref in Hf.
  apply elem_of_dom. destruct (σ !! l); [done|].
  simpl in Hf. by rewrite lookup_empty in Hf.
Qed.

Lemma allocPanels_spec os : ∀ σ,
  ∃ ps σ', allocPanels os σ = Some (ps, σ') ∧ length ps = length os ∧
           stable [] σ σ'.
Proof.
  induction os as [|o os IH]; intros σ; simpl.
  - exists [], σ. split_and!; [done | done | apply stable_refl].
  - unfold bind. destruct o as [m|]; simpl.
    + destruct (IH (<[fresh (dom σ) := m]> σ)) as (ps & σ' & -> & Hlen & Hst).
      eexists _, _. split; [done|]. split; [simpl; lia|].
      eapply stable_trans; [|exact Hst]. split.
      * rewrite dom_insert. set_solver.
      * intros l k Hl _. rewrite deref_insert.
        destruct (decide (fresh (dom σ) = l)) as [<-|]; [|done].
        by apply is_fresh in Hl.
    + unfold ret at 1. destruct (IH σ) as (ps & σ' & -> & Hlen & Hst).
      eexists _, _. split; [done|]. split; [simpl; lia | done].
Qed.

Section GroupProofs.
Context `{!JSON}.

Lemma decodedType_allocated σ p ty :
  decodedType σ p = Some ty → ∀ l, p = Some l → l ∈ dom σ.
Proof.
  unfold decodedType, TypeRaw. destruct (field σ p s_type) eqn:E; [|done].
  intros _. by eapply field_Some_allocated.
Qed.

Lemma stable_decodedType σ σ' p :
  stable written σ σ' → (∀ l, p = Some l → l ∈ dom σ) →
  decodedType σ' p = decodedType σ p.
Proof.
  intros Hst Hp. unfold decodedType, TypeRaw.
  rewrite (stable_field written σ σ'); [done | done | | done].
  unfold written, s_type, s_gridPos, s_id, s_panels, s_collapsed.
  rewrite !elem_of_cons, elem_of_nil. naive_solver.
Qed.

Lemma stable_decodedTitle σ σ' p :
  stable written σ σ' → (∀ l, p = Some l → l ∈ dom σ) →
  decodedTitle σ' p = decodedTitle σ p.
Proof.
  intros Hst Hp. unfold decodedTitle, TitleRaw.
  rewrite (stable_field written σ σ'); [done | done | | done].
  unfold written, s_title, s_gridPos, s_id, s_panels, s_collapsed.
  rewrite !elem_of_cons, elem_of_nil. naive_solver.
Qed.

Lemma stable_key σ σ' p :
  stable written σ σ' → (∀ l, p = Some l → l ∈ dom σ) → key σ' p = key σ p.
Proof.
  intros Hst Hp. apply key_of_fields.
  - apply (stable_field written); [done | | done].
    unfold written, s_title, s_gridPos, s_id, s_panels, s_collapsed.
    rewrite !elem_of_cons, elem_of_nil. naive_solver.
  - apply (stable_field written); [done | | done].
    unfold written, s_type, s_gridPos, s_id, s_panels, s_collapsed.
    rewrite !elem_of_cons, elem_of_nil. naive_solver.
Qed.

Lemma stable_nil_written σ σ' : stable [] σ σ' → stable written σ σ'.
Proof. intros [Hd Hf]. split; [done|]. intros l k Hl _. apply Hf; [done|]. set_solver. Qed.

Lemma retrieveEmbeddedPanels_spec p σ :
  ∃ embedded σ', retrieveEmbeddedPanels p σ = Some (embedded, σ') ∧
                 stable [] σ σ'.
Proof.
  unfold retrieveEmbeddedPanels, bind, get_heap.
  destruct (PanelsRaw σ p) as [raw|].
  - destruct (unmarshal_Panels raw) as [objs|].
    + destruct (allocPanels_spec objs σ) as (ps & σ' & -> & _ & Hst). eauto.
    + exists [], σ. split; [done | apply stable_refl].
  - exists [], σ. split; [done | apply stable_refl].
Qed.

(** A panel whose type is absent or does not decode is skipped. *)
Lemma groupStep_skip st p σ :
  decodedType σ p = None → groupStep st p σ = Some (st, σ).
Proof.
  unfold decodedType, groupStep, bind, get_heap.
  destruct (TypeRaw σ p) as [t|]; [|done]. by intros ->.
Qed.

(** A content panel joins the current group. *)
Lemma groupStep_content st p σ :
  isContent σ p →
  groupStep st p σ =
  Some ({| groups := <[groupName st := group_of (groups st) (groupName st) ++ [p]]>
                       (groups st);
           rows := rows st;
           groupName := groupName st |}, σ).
Proof.
  intros (ty & Hty & Hne). unfold decodedType in Hty.
  unfold groupStep, bind, get_heap.
  destruct (TypeRaw σ p) as [t|]; [|done]. rewrite Hty.
  destruct (String.eqb_spec ty s_row); done.
Qed.

(** A row marker sets the group name only when its title decodes. *)
Lemma groupStep_row st p σ :
  isRow σ p →
  ∃ embedded σ1 σ',
    retrieveEmbeddedPanels p σ = Some (embedded, σ1) ∧
    stable written σ σ' ∧
    let name := default (groupName st) (decodedTitle σ p) in
    groupStep st p σ =
    Some ({| groups := <[name := group_of (groups st) name ++ embedded]> (groups st);
             rows := <[name := p]> (rows st);
             groupName := name |}, σ').
Proof.
  intros Hrow. unfold isRow in Hrow.
  pose proof (decodedType_allocated _ _ _ Hrow) as Hal.
  unfold decodedType in Hrow.
  destruct (retrieveEmbeddedPanels_spec p σ) as (emb & σ1 & Hemb & Hst1).
  destruct p as [l|].
  2:{ unfold TypeRaw, field in Hrow. done. }
  exists emb, σ1. eexists. split; [done|].
  unfold groupStep, bind, get_heap.
  destruct (TypeRaw σ (Some l)) as [t|]; [|done]. rewrite Hrow.
  rewrite String.eqb_refl. rewrite Hemb. unfold assign, ret.
  assert (rowGroupName σ (Some l) (groupName st)
          = default (groupName st) (decodedTitle σ (Some l))) as ->.
  { unfold rowGroupName, decodedTitle.
    destruct (TitleRaw σ (Some l)); [|done]. by destruct (unmarshal_string s). }
  split; [|reflexivity].
  eapply stable_trans; [by apply stable_nil_written|].
  eapply stable_trans.
  - eapply (stable_assign written (Some l) s_panels); [done|].
    unfold written. set_solver.
  - eapply (stable_assign written (Some l) s_collapsed); [done|].
    unfold written. set_solver.
Qed.

(** X25. A row marker whose title is absent or does not decode leaves
    the current group name as it is (so the name is ["none"] only while no
    earlier row marker had a title that decodes); the marker and the
    panels nested in it are recorded under that unchanged name. *)
Theorem row_without_title_keeps_group (st : GroupState) (p : Panel) (σ : Heap) :
  isRow σ p → decodedTitle σ p = None →
  ∃ embedded σ1 σ',
    retrieveEmbeddedPanels p σ = Some (embedded, σ1) ∧
    groupStep st p σ =
    Some ({| groups := <[groupName st :=
                          group_of (groups st) (groupName st) ++ embedded]>
                       (groups st);
             rows := <[groupName st := p]> (rows st);
             groupName := groupName st |}, σ').
Proof.
  intros Hrow Htitle.
  destruct (groupStep_row st p σ Hrow) as (emb & σ1 & σ' & Hemb & _ & Hstep).
  rewrite Htitle in Hstep. simpl in Hstep. by exists emb, σ1, σ'.
Qed.

End GroupProofs.

Lemma group_of_insert (g : gmap string (list Panel)) name l name' :
  group_of (<[name := l]> g) name' = if decide (name = name') then l else group_of g name'.
Proof.
  unfold group_of. rewrite lookup_insert. by destruct (decide (name = name')).
Qed.

Section GroupLoop.
Context `{!JSON}.

Lemma groupStep_grouped σ0 done st σ p st' σ' :
  grouped σ0 done st σ → groupStep st p σ = Some (st', σ') →
  grouped σ0 (done ++ [p]) st' σ'.
Proof.
  intros (Hst & Hcont & Hrg & Hgr & Hname & Hrows & Hrec) Hstep.
  assert (Hmono : ∀ q, q ∈ done ++ [p] → q ∈ done ∨ q = p).
  { intros q Hq. apply elem_of_app in Hq as [?|Hq]; [auto|].
    apply list_elem_of_singleton in Hq. auto. }
  destruct (decodedType σ p) as [ty|] eqn:Ety.
  2:{ (* skipped *)
    rewrite groupStep_skip in Hstep by done. injection Hstep as <- <-.
    split_and!; try done.
    - intros q Hq Hc. apply Hmono in Hq as [Hq| ->]; [auto|].
      destruct Hc as (ty & Hty & _).
      rewrite <- (stable_decodedType σ0 σ) in Hty; [congruence | done |].
      by eapply decodedType_allocated.
    - intros name Hn. destruct (Hrows name Hn) as (q & Hq & Hr & Hl & Hor).
      exists q. split_and!; [set_solver | done | done |].
      destruct Hor as [?|(q' & ? & ? & ?)]; [auto|]. right. exists q'. set_solver.
    - intros q name Hq Hr Ht. apply Hmono in Hq as [Hq| ->]; [eauto|].
      unfold isRow in Hr.
      rewrite <- (stable_decodedType σ0 σ) in Hr; [congruence | done |].
      by eapply decodedType_allocated. }
  destruct (decide (ty = s_row)) as [->|Hne].
  - (* a row marker *)
    destruct (groupStep_row st p σ Ety) as (emb & σ1 & σ2 & Hemb & Hst2 & Hs).
    simpl in Hs. rewrite Hs in Hstep. injection Hstep as <- <-.
    set (name := default (groupName st) (decodedTitle σ p)) in *.
    assert (Hal : ∀ l, p = Some l → l ∈ dom σ) by by eapply decodedType_allocated.
    assert (Hrow2 : isRow σ2 p).
    { unfold isRow. by rewrite (stable_decodedType σ σ2). }
    split_and!; cbn [groups rows groupName].
    + by eapply stable_trans.
    + intros q Hq Hc. apply Hmono in Hq as [Hq| ->].
      * destruct (Hcont q Hq Hc) as [n Hn]. exists n.
        rewrite group_of_insert. case_decide as Hd; [|done].
        subst n. apply elem_of_app. by left.
      * destruct Hc as (ty & Hty & Hne). unfold isRow in Ety.
        rewrite (stable_decodedType σ0 σ) in Ety; [congruence | done |].
        by eapply decodedType_allocated.
    + rewrite !dom_insert. set_solver.
    + intros n. rewrite !dom_insert. set_solver.
    + right. rewrite dom_insert. set_solver.
    + intros n Hn. rewrite dom_insert in Hn.
      destruct (decide (n = name)) as [->|Hnn].
      * exists p. split_and!; [set_solver | done | by rewrite lookup_insert_eq |].
        destruct (decodedTitle σ p) as [t|] eqn:Et.
        -- right. exists p. split_and!; [set_solver | done |].
           rewrite (stable_decodedTitle σ σ2) by done. by rewrite Et.
        -- subst name. simpl. destruct Hname as [Hnone|Hin]; [by left|].
           destruct (Hrows _ Hin) as (_ & _ & _ & _ & [?|(q' & Hq' & Hr' & Ht')]);
             [by left|].
           right. exists q'. split_and!; [set_solver | |].
           ++ unfold isRow. rewrite (stable_decodedType σ σ2); [done | done|].
              by eapply decodedType_allocated.
           ++ rewrite (stable_decodedTitle σ σ2); [done | done|].
              by eapply decodedType_allocated.
      * assert (n ∈ dom (rows st)) as Hn' by set_solver.
        destruct (Hrows n Hn') as (q & Hq & Hr & Hl & Hor).
        exists q. split_and!; [set_solver | | by rewrite lookup_insert_ne |].
        -- unfold isRow. rewrite (stable_decodedType σ σ2); [done | done|].
           by eapply decodedType_allocated.
        -- destruct Hor as [?|(q' & Hq' & Hr' & Ht')]; [by left|].
           right. exists q'. split_and!; [set_solver | |].
           ++ unfold isRow. rewrite (stable_decodedType σ σ2); [done | done|].
              by eapply decodedType_allocated.
           ++ rewrite (stable_decodedTitle σ σ2); [done | done|].
              by eapply decodedType_allocated.
    + intros q n Hq Hr Ht. apply Hmono in Hq as [Hq| ->].
      * rewrite dom_insert. specialize (Hrec q n Hq Hr Ht). set_solver.
      * assert (decodedTitle σ p = Some n) as Ht'.
        { rewrite (stable_decodedTitle σ0 σ); [done | done |].
          by eapply decodedType_allocated. }
        subst name. rewrite Ht'. simpl. rewrite dom_insert. set_solver.
  - (* a content panel *)
    rewrite groupStep_content in Hstep by (by exists ty).
    injection Hstep as <- <-.
    split_and!; cbn [groups rows groupName]; try done.
    + intros q Hq Hc. apply Hmono in Hq as [Hq| ->].
      * destruct (Hcont q Hq Hc) as [n Hn]. exists n.
        rewrite group_of_insert. case_decide as Hd; [|done].
        subst n. apply elem_of_app. by left.
      * exists (groupName st). rewrite group_of_insert.
        rewrite decide_True by done. set_solver.
    + rewrite dom_insert. set_solver.
    + intros n. rewrite dom_insert. set_solver.
    + intros n Hn. destruct (Hrows n Hn) as (q & Hq & Hr & Hl & Hor).
      exists q. split_and!; [set_solver | done | done |].
      destruct Hor as [?|(q' & ? & ? & ?)]; [auto|]. right. exists q'. set_solver.
    + intros q n Hq Hr Ht. apply Hmono in Hq as [Hq| ->]; [eauto|].
      unfold isRow in Hr.
      rewrite <- (stable_decodedType σ0 σ) in Hr; [congruence | done |].
      by eapply decodedType_allocated.
Qed.

Lemma groupByRow_grouped ps σ0 g r σ :
  groupByRow ps σ0 = Some ((g, r), σ) →
  ∃ name, grouped σ0 ps (mkGroupState g r name) σ.
Proof.
  unfold groupByRow. intros Hrun.
  apply bind_Some in Hrun as (st & σ1 & Hloop & Hret). inv_M.
  exists (groupName st).
  replace (mkGroupState (groups st) (rows st) (groupName st)) with st
    by by destruct st.
  refine (foldM_inv groupStep (grouped σ0) ps _ _ _ _ _ _ Hloop).
  - split_and!; simpl; try done; try set_solver; try apply stable_refl; by left.
  - intros dn a s0 τ s1 τ1 _ HI Hs. by eapply groupStep_grouped.
Qed.

(** [groupByRow] never panics. *)
Lemma groupStep_total st p σ : is_Some (groupStep st p σ).
Proof.
  destruct (decodedType σ p) as [ty|] eqn:Ety.
  - destruct (decide (ty = s_row)) as [->|Hne].
    + destruct (groupStep_row st p σ Ety) as (? & ? & ? & _ & _ & Hs).
      simpl in Hs. by rewrite Hs.
    + rewrite groupStep_content by (by exists ty). done.
  - by rewrite groupStep_skip.
Qed.

Lemma groupByRow_total ps σ : is_Some (groupByRow ps σ).
Proof.
  unfold groupByRow, bind.
  assert (is_Some (foldM groupStep (mkGroupState ∅ ∅ s_none) ps σ)) as [[st σ'] ->].
  { generalize (mkGroupState ∅ ∅ s_none). revert σ.
    induction ps as [|p ps IH]; intros σ st; simpl; [done|].
    unfold bind. destruct (groupStep_total st p σ) as [[st' σ'] ->]. apply IH. }
  done.
Qed.

End GroupLoop.

Lemma foldl_inv {A S} (f : S → A → S) (I : list A → S → Prop) l s :
  I [] s →
  (∀ done a s, a ∈ l → I done s → I (done ++ [a]) (f s a)) →
  I l (foldl f s l).
Proof.
  intros H0 Hstep.
  assert (G : ∀ done rest s, l = done ++ rest → I done s → I l (foldl f s rest)).
  { intros done rest. revert done.
    induction rest as [|a rest IH]; intros done s0 El Hd; simpl.
    - by rewrite El, app_nil_r.
    - apply (IH (done ++ [a])); [by rewrite <- app_assoc|].
      apply Hstep; [|done]. rewrite El. set_solver. }
  by apply (G [] l s).
Qed.

Lemma key_of_field_ok σ σ' p :
  (∀ k, k ≠ s_gridPos → k ≠ s_id → field_ok σ' p k = field_ok σ p k) →
  key σ' p = key σ p.
Proof. intros Hf. apply key_of_fields; unfold field; by rewrite Hf. Qed.

Section MergeGroupsProofs.
Context `{!JSON}.

(** [MergePanels] writes only [gridPos] and [id]. *)
Lemma mergeStep_fields maxY res p2 σ maxY' res' σ' :
  mergeStep (maxY, res) p2 σ = Some ((maxY', res'), σ') →
  ∀ p k, k ≠ s_gridPos → k ≠ s_id → field_ok σ' p k = field_ok σ p k.
Proof.
  rewrite mergeStep_eq. intros Hrun p k Hg Hi.
  destruct (overwriteAll p2 res σ) as [[[res1 m] σ1]|] eqn:E; [|done].
  pose proof (overwriteAll_spec _ _ _ _ _ _ E) as (_ & _ & _ & Hfr & Hown & _).
  assert (field_ok σ1 p k = field_ok σ p k) as Hk.
  { destruct (decide (p = p2)) as [->|]; [by apply Hown | by apply Hfr]. }
  destruct m; [by injection Hrun as <- <- <-|].
  destruct (assign p2 s_gridPos _ σ1) as [[[] σ2]|] eqn:E2; [|done].
  injection Hrun as <- <- <-. apply assign_Some in E2 as (l & -> & ->).
  rewrite field_ok_assign. case_decide; [naive_solver | done].
Qed.

Lemma mergeLoop_fields qs : ∀ maxY res σ maxY' res' σ',
  foldM mergeStep (maxY, res) qs σ = Some ((maxY', res'), σ') →
  ∀ p k, k ≠ s_gridPos → k ≠ s_id → field_ok σ' p k = field_ok σ p k.
Proof.
  induction qs as [|q qs IH]; intros maxY res σ maxY' res' σ' Hrun p k Hg Hi;
    cbn [foldM] in Hrun.
  - by inv_M.
  - apply bind_Some in Hrun as ([m1 res1] & σ1 & Hs & Hrest).
    rewrite (IH _ _ _ _ _ _ Hrest) by done. by eapply mergeStep_fields.
Qed.

(** Every panel given to the second loop, and every slot it starts from,
    is represented in the result by a panel with the same key. *)
Lemma mergeLoop_covers qs : ∀ maxY res σ maxY' res' σ',
  foldM mergeStep (maxY, res) qs σ = Some ((maxY', res'), σ') →
  ∀ x, x ∈ res ∨ x ∈ qs → ∃ r, r ∈ res' ∧ key σ r = key σ x.
Proof.
  induction qs as [|q qs IH]; intros maxY res σ maxY' res' σ' Hrun x Hx;
    cbn [foldM] in Hrun.
  - inv_M. destruct Hx as [Hx|Hx]; [by exists x | by apply elem_of_nil in Hx].
  - apply bind_Some in Hrun as ([m1 res1] & σ1 & Hs & Hrest).
    pose proof (mergeStep_key _ _ _ _ _ _ _ Hs) as Hk.
    assert (Hnext : ∀ y, y ∈ res1 ∨ y ∈ qs → ∃ r, r ∈ res' ∧ key σ r = key σ y).
    { intros y Hy. destruct (IH _ _ _ _ _ _ Hrest y Hy) as (r & Hr & Hkr).
      exists r. split; [done|]. by rewrite <- !Hk. }
    rewrite mergeStep_eq in Hs.
    destruct (overwriteAll q res σ) as [[[res2 m] σ2]|] eqn:E; [|done].
    pose proof (overwriteAll_spec _ _ _ _ _ _ E) as (Hres2 & Hm & _).
    assert (Hsub : ∀ y, y ∈ res2 → y ∈ res1).
    { destruct m; [by injection Hs as <- <- <-|].
      destruct (assign q s_gridPos _ σ2) as [[[] σ3]|]; [|done].
      injection Hs as <- <- <-. set_solver. }
    assert (Hq : q ∈ res1).
    { destruct m.
      - injection Hs as <- <- <-.
        destruct (proj1 Hm eq_refl) as (r & Hr & Er).
        rewrite Hres2. apply list_elem_of_fmap. exists r. by rewrite Er.
      - destruct (assign q s_gridPos _ σ2) as [[[] σ3]|]; [|done].
        injection Hs as <- <- <-. set_solver. }
    destruct Hx as [Hx|Hx].
    + destruct (Equals σ x q) eqn:Ex.
      * destruct (Hnext q (or_introl Hq)) as (r & Hr & Hkr).
        exists r. split; [done|]. apply Equals_true in Ex. congruence.
      * apply Hnext. left. apply Hsub. rewrite Hres2.
        apply list_elem_of_fmap. exists x. by rewrite Ex.
    + apply elem_of_cons in Hx as [->|Hx]; [by apply Hnext; left | by apply Hnext; right].
Qed.

Lemma MergePanels_covers ps1 ps2 σ res σ' :
  MergePanels ps1 ps2 σ = Some (res, σ') →
  (∀ p k, k ≠ s_gridPos → k ≠ s_id → field_ok σ' p k = field_ok σ p k) ∧
  (∀ x, x ∈ ps1 ∨ x ∈ ps2 → ∃ r, r ∈ res ∧ key σ r = key σ x).
Proof.
  intros (gps & maxY' & _ & Hrun)%MergePanels_eq. split.
  - by eapply mergeLoop_fields.
  - by eapply mergeLoop_covers.
Qed.

Context `{!MapRange}.

Lemma range_keys_elem {V} site (m : gmap string V) name :
  name ∈ range_keys site m ↔ name ∈ dom m.
Proof.
  unfold range_keys. rewrite (range_order_perm site (elements (dom m))).
  apply elem_of_elements.
Qed.

Lemma range_keys_NoDup {V} site (m : gmap string V) : NoDup (range_keys site m).
Proof.
  unfold range_keys. rewrite (range_order_perm site (elements (dom m))).
  apply NoDup_elements.
Qed.

Lemma mergeGroups_spec g1 g2 σ merged σ' :
  mergeGroups g1 g2 σ = Some (merged, σ') →
  (∀ p k, k ≠ s_gridPos → k ≠ s_id → field_ok σ' p k = field_ok σ p k) ∧
  dom merged = dom g1 ∪ dom g2 ∧
  (∀ name, covers σ g1 g2 merged name).
Proof.
  unfold mergeGroups. intros Hrun.
  apply bind_Some in Hrun as (m1 & σ1 & Hloop & Hret). inv_M.
  (* the groups of ps1 *)
  assert (Hfirst : (∀ p k, k ≠ s_gridPos → k ≠ s_id →
                  field_ok σ' p k = field_ok σ p k) ∧
               dom m1 = dom g1 ∧
               (∀ name, name ∈ dom m1 → covers σ g1 g2 m1 name)).
  { pose (I := λ (dn : list string) (m : gmap string (list Panel)) (τ : Heap),
        (∀ p k, k ≠ s_gridPos → k ≠ s_id → field_ok τ p k = field_ok σ p k) ∧
        dom m = list_to_set dn ∧
        (∀ name, name ∈ dom m → covers σ g1 g2 m name)).
    assert (I (range_keys 1 g1) m1 σ') as (Hf & Hd & Hc).
    { refine (foldM_inv _ I _ _ _ _ _ _ _ Hloop).
      - split_and!; [done | set_solver |]. intros name Hn. set_solver.
      - intros dn name m τ m' τ' _ (Hf & Hd & Hc) Hs.
        unfold mergeGroupStep in Hs.
        destruct (g2 !! name) as [g2l|] eqn:Eg2.
        + apply bind_Some in Hs as (r & τ1 & Hmp & Hret). inv_M.
          apply MergePanels_covers in Hmp as (Hf' & Hcov).
          assert (Hk : ∀ p, key τ p = key σ p).
          { intros p. apply key_of_field_ok. auto. }
          split_and!.
          * intros p k Hg Hi. rewrite Hf' by done. auto.
          * rewrite dom_insert_L, list_to_set_app_L, Hd. set_solver.
          * intros n Hn x Hx. rewrite group_of_insert.
            destruct (decide (name = n)) as [<-|Hne].
            -- destruct (Hcov x) as (r' & Hr' & Hkr').
               { unfold group_of in Hx. rewrite Eg2 in Hx. simpl in Hx. done. }
               exists r'. split; [done|]. by rewrite <- !Hk.
            -- apply Hc; [|done]. rewrite dom_insert_L in Hn. set_solver.
        + inv_M. split_and!; [done | |].
          * rewrite dom_insert_L, list_to_set_app_L, Hd. set_solver.
          * intros n Hn x Hx. rewrite group_of_insert.
            destruct (decide (name = n)) as [<-|Hne].
            -- destruct Hx as [Hx|Hx]; [by exists x|].
               unfold group_of in Hx. rewrite Eg2 in Hx. simpl in Hx.
               by apply elem_of_nil in Hx.
            -- apply Hc; [|done]. rewrite dom_insert_L in Hn. set_solver. }
    split_and!; [done | | done].
    rewrite Hd. apply set_eq. intros n.
    rewrite elem_of_list_to_set. apply range_keys_elem. }
  destruct Hfirst as (Hf & Hd1 & Hc1).
  split; [done|].
  (* the groups that ps2 adds *)
  pose (I := λ (dn : list string) (m : gmap string (list Panel)),
      dom m = dom g1 ∪ list_to_set dn ∧
      (∀ name, name ∈ dom m → covers σ g1 g2 m name)).
  assert (I (range_keys 2 g2) (foldl (addGroupStep g2) m1 (range_keys 2 g2)))
    as (Hd & Hc).
  { apply foldl_inv.
    - split; [set_solver | done].
    - intros dn name m Hin (Hd & Hc). unfold addGroupStep.
      destruct (m !! name) as [l|] eqn:Em.
      + split; [|done]. rewrite list_to_set_app_L, Hd.
        assert (name ∈ dom m) as Hn by (apply elem_of_dom; eauto).
        rewrite Hd in Hn. set_solver.
      + split.
        * rewrite dom_insert_L, list_to_set_app_L, Hd. set_solver.
        * intros n Hn x Hx. rewrite group_of_insert.
          destruct (decide (name = n)) as [<-|Hne].
          -- destruct Hx as [Hx|Hx]; [|by exists x].
             assert (name ∉ dom g1) as Hg1.
             { apply not_elem_of_dom in Em. rewrite Hd in Em. set_solver. }
             apply not_elem_of_dom in Hg1. unfold group_of in Hx.
             rewrite Hg1 in Hx. by apply elem_of_nil in Hx.
          -- apply Hc; [|done]. rewrite dom_insert_L in Hn. set_solver. }
  assert (Hdom : dom (foldl (addGroupStep g2) m1 (range_keys 2 g2))
                 = dom g1 ∪ dom g2).
  { rewrite Hd. f_equal. apply set_eq. intros n.
    rewrite elem_of_list_to_set. apply range_keys_elem. }
  split; [done|].
  intros name. destruct (decide (name ∈ dom g1 ∪ dom g2)) as [Hin|Hout].
  - apply Hc. by rewrite Hdom.
  - intros x Hx. exfalso.
    assert (g1 !! name = None) as E1 by (apply not_elem_of_dom; set_solver).
    assert (g2 !! name = None) as E2 by (apply not_elem_of_dom; set_solver).
    unfold group_of in Hx. rewrite E1, E2 in Hx. simpl in Hx.
    destruct Hx as [Hx|Hx]; by apply elem_of_nil in Hx.
Qed.

End MergeGroupsProofs.

(** ** The blocks of [MergePanelsByGroup] *)

Lemma elem_of_concat {A} (x : A) (ls : list (list A)) :
  x ∈ concat ls ↔ ∃ l, x ∈ l ∧ l ∈ ls.
Proof.
  induction ls as [|l ls IH]; simpl.
  - split; [by intros ?%elem_of_nil | by intros (? & _ & ?%elem_of_nil)].
  - rewrite elem_of_app, IH. split.
    + intros [Hx|(l' & Hx & Hl')]; [exists l; split; [done | left] |].
      exists l'. split; [done | by right].
    + intros (l' & Hx & [->|Hl']%elem_of_cons); [by left | right; eauto].
Qed.

Lemma newGroupLoop_eq (r2 : gmap string Panel) (merged : gmap string (list Panel))
    (only names : list string) : ∀ tmp seen,
  foldl (newGroupStep r2 merged only) (tmp, seen) names =
  (tmp ++ concat ((λ t, row_of r2 t :: group_of merged t)
                    <$> filter (λ t, t ∈ only) names),
   list_to_set (filter (λ t, t ∈ only) names) ∪ seen).
Proof.
  induction names as [|t names IH]; intros tmp seen.
  - simpl. rewrite app_nil_r. f_equal. set_solver.
  - cbn [foldl]. rewrite filter_cons.
    assert (newGroupStep r2 merged only (tmp, seen) t =
            if bool_decide (t ∈ only)
            then ((tmp ++ [row_of r2 t]) ++ group_of merged t, {[t]} ∪ seen)
            else (tmp, seen)) as -> by done.
    case_bool_decide as Hd.
    + rewrite IH, decide_True by done. simpl. f_equal.
      * by rewrite <- !app_assoc.
      * set_solver.
    + by rewrite IH, decide_False by done.
Qed.

Section BlocksProofs.
Context `{!JSON} `{!MapRange}.

Lemma onlyInPs2_elem (r1 r2 : gmap string Panel) t :
  t ∈ onlyInPs2 r1 r2 ↔ t ∈ dom r2 ∧ t ∉ dom r1.
Proof.
  unfold onlyInPs2. rewrite <- (range_keys_elem 3 r2 t).
  generalize (range_keys 3 r2). intros l.
  assert (G : ∀ acc, t ∈ foldl (onlyPs2Step r1) acc l ↔
                     t ∈ acc ∨ (t ∈ l ∧ t ∉ dom r1)).
  { induction l as [|a l IH]; intros acc; simpl; [set_solver|].
    rewrite IH. unfold onlyPs2Step.
    destruct (r1 !! a) eqn:E.
    - assert (a ∈ dom r1) by (apply elem_of_dom; eauto). set_solver.
    - apply not_elem_of_dom in E. set_solver. }
  rewrite G. set_solver.
Qed.

(** C3 (amended). The block of the groups that only the incoming side has
    holds, for each name of [rowsPs2] that is not a name of [rowsPs1],
    exactly once the header [rowsPs2[name]] followed by
    [mergedGroups[name]]; the groups come in the order in which [range]
    visits [mergedGroups], which the inputs do not fix. *)
Theorem new_groups_block_order
    (r1 r2 : gmap string Panel) (merged : gmap string (list Panel)) :
  dom r2 ⊆ dom merged →
  let names := filter (λ t, t ∈ dom r2 ∖ dom r1) (range_keys 4 merged) in
  names ≡ₚ elements (dom r2 ∖ dom r1) ∧
  (newGroupsBlock r2 merged (onlyInPs2 r1 r2)).1 =
    concat ((λ t, row_of r2 t :: group_of merged t) <$> names).
Proof.
  intros Hsub names. split.
  - apply NoDup_Permutation.
    + apply NoDup_filter, range_keys_NoDup.
    + apply NoDup_elements.
    + intros t. unfold names. rewrite list_elem_of_filter, elem_of_elements.
      rewrite range_keys_elem. set_solver.
  - unfold newGroupsBlock. rewrite newGroupLoop_eq. simpl. f_equal. f_equal.
    unfold names. apply list_filter_iff. intros t.
    rewrite onlyInPs2_elem. set_solver.
Qed.

Lemma newGroupsBlock_spec (r1 r2 : gmap string Panel)
    (merged : gmap string (list Panel)) tmp1 seen :
  newGroupsBlock r2 merged (onlyInPs2 r1 r2) = (tmp1, seen) →
  (∀ t, t ∈ seen ↔ t ∈ dom merged ∧ t ∈ dom r2 ∧ t ∉ dom r1) ∧
  (∀ t x, t ∈ seen → x ∈ group_of merged t → x ∈ tmp1).
Proof.
  unfold newGroupsBlock. rewrite newGroupLoop_eq. simpl. intros [= <- <-].
  assert (Hin : ∀ t, t ∈ filter (λ t, t ∈ onlyInPs2 r1 r2) (range_keys 4 merged)
                     ↔ t ∈ dom merged ∧ t ∈ dom r2 ∧ t ∉ dom r1).
  { intros t. rewrite list_elem_of_filter, onlyInPs2_elem, range_keys_elem.
    tauto. }
  split.
  - intros t. rewrite <- Hin. set_solver.
  - intros t x Ht Hx. apply elem_of_union in Ht as [Ht|Ht]; [|set_solver].
    apply elem_of_list_to_set in Ht.
    apply elem_of_concat. exists (row_of r2 t :: group_of merged t).
    split; [by right|]. apply list_elem_of_fmap. by exists t.
Qed.

(** The walk over [ps1]. *)
Lemma walkStep_other σ r1 r2 merged tmp seen p :
  ¬ isRow σ p → walkStep σ r1 r2 merged (tmp, seen) p = (tmp, seen).
Proof.
  unfold isRow, decodedType, walkStep. intros Hn.
  destruct (TypeRaw σ p) as [t|]; [|done].
  destruct (unmarshal_string t) as [ty|]; [|done].
  destruct (String.eqb_spec ty s_row) as [->|]; done.
Qed.

Lemma walkStep_row σ r1 r2 (merged : gmap string (list Panel)) tmp seen p :
  isRow σ p →
  walkStep σ r1 r2 merged (tmp, seen) p =
  (tmp ++ chooseHeader r1 r2 (walkTitle σ p) p ::
     (if decide (walkTitle σ p ∈ seen) then []
      else group_of merged (walkTitle σ p)),
   {[walkTitle σ p]} ∪ seen).
Proof.
  unfold isRow, decodedType, walkStep. intros Hr.
  destruct (TypeRaw σ p) as [t|]; [|done]. rewrite Hr.
  rewrite String.eqb_refl. case_bool_decide as Hd.
  - rewrite decide_True by done. f_equal. set_solver.
  - rewrite decide_False by done. unfold group_of.
    destruct (merged !! walkTitle σ p); simpl.
    + by rewrite <- app_assoc.
    + done.
Qed.

Lemma walkLoop_app σ r1 r2 merged ps : ∀ tmp seen,
  ∃ out, (foldl (walkStep σ r1 r2 merged) (tmp, seen) ps).1 = tmp ++ out.
Proof.
  induction ps as [|p ps IH]; intros tmp seen; cbn [foldl].
  - exists []. simpl. by rewrite app_nil_r.
  - destruct (walkStep σ r1 r2 merged (tmp, seen) p) as [tmp' seen'] eqn:E.
    destruct (IH tmp' seen') as [out Hout]. rewrite Hout.
    destruct (decide (isRow σ p)) as [Hr|Hn].
    + rewrite walkStep_row in E by done. injection E as <- <-.
      eexists. by rewrite <- app_assoc.
    + rewrite walkStep_other in E by done. injection E as <- <-. by exists out.
Qed.

(** C5 (amended). In the walk over [ps1] every row marker appends a header
    (the header of [ps1] for its title, else that of [ps2], else the marker
    itself), also when its title was met before: only the merged content of
    the group is guarded, and follows the header the first time the title
    is met. *)
Theorem walk_emits_every_header
    (σ : Heap) (r1 r2 : gmap string Panel) (merged : gmap string (list Panel))
    (seen : gset string) (l1 : list Panel) (p : Panel) (l2 : list Panel) :
  isRow σ p →
  ∃ rest,
    (existingGroupsBlock σ r1 r2 merged seen (l1 ++ p :: l2)).1 =
    (existingGroupsBlock σ r1 r2 merged seen l1).1 ++
    chooseHeader r1 r2 (walkTitle σ p) p ::
    (if decide (walkTitle σ p
                  ∈ (existingGroupsBlock σ r1 r2 merged seen l1).2)
     then [] else group_of merged (walkTitle σ p)) ++ rest.
Proof.
  intros Hr. unfold existingGroupsBlock. rewrite foldl_app. cbn [foldl].
  destruct (foldl (walkStep σ r1 r2 merged) ([], seen) l1) as [tmpA seenA].
  rewrite walkStep_row by done. cbn [fst snd].
  destruct (walkLoop_app σ r1 r2 merged l2
              (tmpA ++ chooseHeader r1 r2 (walkTitle σ p) p ::
                 (if decide (walkTitle σ p ∈ seenA) then []
                  else group_of merged (walkTitle σ p)))
              ({[walkTitle σ p]} ∪ seenA)) as [out ->].
  exists out. by rewrite <- app_assoc.
Qed.


(** The first row marker with a title that was not seen puts the header
    and then the merged group in the block. *)
Lemma walkLoop_first σ r1 r2 (merged : gmap string (list Panel)) ps :
  ∀ tmp seen p,
  p ∈ ps → isRow σ p → walkTitle σ p ∉ seen →
  ∃ a b q, isRow σ q ∧ walkTitle σ q = walkTitle σ p ∧
    (foldl (walkStep σ r1 r2 merged) (tmp, seen) ps).1 =
    a ++ chooseHeader r1 r2 (walkTitle σ p) q ::
         group_of merged (walkTitle σ p) ++ b.
Proof.
  induction ps as [|p0 ps IH]; intros tmp seen p Hp Hr Hns; cbn [foldl].
  - by apply elem_of_nil in Hp.
  - destruct (decide (isRow σ p0 ∧ walkTitle σ p0 = walkTitle σ p)) as [[Hr0 Et]|Hno].
    + rewrite walkStep_row by done. rewrite Et. rewrite decide_False by done.
      destruct (walkLoop_app σ r1 r2 merged ps
        (tmp ++ chooseHeader r1 r2 (walkTitle σ p) p0 :: group_of merged (walkTitle σ p))
        ({[walkTitle σ p]} ∪ seen)) as [out ->].
      exists tmp, out, p0. split_and!; [done | done |].
      by rewrite <- app_assoc.
    + apply elem_of_cons in Hp as [->|Hp]; [naive_solver|].
      destruct (decide (isRow σ p0)) as [Hr0|Hn0].
      * rewrite walkStep_row by done. apply IH; [done | done |].
        set_solver.
      * rewrite walkStep_other by done. by apply IH.
Qed.

End BlocksProofs.

Section WholeProofs.
Context `{!JSON} `{!MapRange}.

(** The repacking pass writes only [gridPos] and keeps the sequence. *)
Lemma repackLoop_fields res : ∀ st σ st' σ',
  foldM repackStep st res σ = Some (st', σ') →
  ∀ p k, k ≠ s_gridPos → field_ok σ' p k = field_ok σ p k.
Proof.
  induction res as [|q res IH]; intros st σ st' σ' Hrun p k Hk;
    cbn [foldM] in Hrun.
  - by inv_M.
  - apply bind_Some in Hrun as (st1 & σ1 & Hs & Hrest).
    rewrite (IH _ _ _ _ Hrest) by done.
    destruct st as [pl rs]. unfold repackStep, GridPosM, bind, get_heap, liftO in Hs.
    destruct (Panel_GridPos σ q) as [g|]; [|done]. unfold ret at 1 in Hs.
    destruct (place rs g) as [g' rs'].
    destruct (assign q s_gridPos _ σ) as [[[] σ2]|] eqn:E; [|done].
    injection Hs as <- <-. apply assign_Some in E as (l & -> & ->).
    rewrite field_ok_assign. case_decide; [naive_solver | done].
Qed.

Lemma repack_fields res σ placed σ' :
  repack res σ = Some (placed, σ') →
  ∀ p k, k ≠ s_gridPos → field_ok σ' p k = field_ok σ p k.
Proof.
  unfold repack. intros Hrun.
  apply bind_Some in Hrun as ([pl st] & σ1 & Hloop & Hret). inv_M.
  by eapply repackLoop_fields.
Qed.

(** The phases of [MergePanelsByGroup]. *)
Lemma MergePanelsByGroup_eq ps1 ps2 top σ res σ' :
  MergePanelsByGroup ps1 ps2 top σ = Some (res, σ') ↔
  ∃ g1 r1 σ1 g2 r2 σ2 merged σ3 placed,
    groupByRow ps1 σ = Some ((g1, r1), σ1) ∧
    groupByRow ps2 σ1 = Some ((g2, r2), σ2) ∧
    mergeGroups g1 g2 σ2 = Some (merged, σ3) ∧
    res = assemble σ3 r1 r2 merged ps1 top ∧
    repack res σ3 = Some (placed, σ').
Proof.
  unfold MergePanelsByGroup. split.
  - intros Hrun.
    apply bind_Some in Hrun as ([g1 r1] & σ1 & Hph1 & Hrun).
    apply bind_Some in Hrun as ([g2 r2] & σ2 & Hph2 & Hrun).
    apply bind_Some in Hrun as (merged & σ3 & Hph3 & Hrun).
    apply bind_Some in Hrun as (τ & σ4 & Hph4 & Hrun).
    apply get_heap_Some in Hph4 as [-> ->].
    apply bind_Some in Hrun as (placed & σ5 & Hph5 & Hrun).
    apply ret_Some in Hrun as [<- <-].
    by exists g1, r1, σ1, g2, r2, σ2, merged, σ3, placed.
  - intros (g1 & r1 & σ1 & g2 & r2 & σ2 & merged & σ3 & placed
              & Hph1 & Hph2 & Hph3 & -> & Hph5).
    unfold bind. rewrite Hph1, Hph2, Hph3. unfold get_heap. by rewrite Hph5.
Qed.

Lemma fields_decodedType σ σ' p :
  (∀ k, k ≠ s_gridPos → k ≠ s_id → field_ok σ' p k = field_ok σ p k) →
  decodedType σ' p = decodedType σ p ∧ decodedTitle σ' p = decodedTitle σ p.
Proof.
  intros Hf. unfold decodedType, decodedTitle, TypeRaw, TitleRaw, field.
  by rewrite !Hf.
Qed.

Lemma decodedTitle_walkTitle σ p name :
  decodedTitle σ p = Some name → walkTitle σ p = name.
Proof.
  unfold decodedTitle, walkTitle. destruct (TitleRaw σ p); [|done].
  by intros ->.
Qed.






(** C10. When [ps1] has a row marker whose title decodes to ["none"], the
    merged content of the group ["none"] is in the output twice: at the
    front, and again right after the header recorded for ["none"] (a row
    marker of [ps1]) in the block of the existing groups. *)
Theorem none_group_emitted_twice
    (ps1 ps2 : list Panel) (top : bool) (σ : Heap)
    (res : list Panel) (σ' : Heap) (p : Panel) :
  MergePanelsByGroup ps1 ps2 top σ = Some (res, σ') →
  p ∈ ps1 → isRow σ p → decodedTitle σ p = Some s_none →
  ∃ g1 r1 σ1 g2 r2 σ2 merged σ3 hdr a b,
    groupByRow ps1 σ = Some ((g1, r1), σ1) ∧
    groupByRow ps2 σ1 = Some ((g2, r2), σ2) ∧
    mergeGroups g1 g2 σ2 = Some (merged, σ3) ∧
    r1 !! s_none = Some hdr ∧ hdr ∈ ps1 ∧
    s_none ∈ dom merged ∧
    res = group_of merged s_none ++ a ++ hdr :: group_of merged s_none ++ b.
Proof.
  intros Hrun Hp Hr Ht.
  apply MergePanelsByGroup_eq in Hrun
    as (g1 & r1 & σ1 & g2 & r2 & σ2 & merged & σ3 & placed
        & Hph1 & Hph2 & Hph3 & Hres & Hph5).
  pose proof (groupByRow_grouped _ _ _ _ _ Hph1)
    as (n1 & Hst1 & _ & Hrg1 & _ & _ & Hrows1 & Hrec1).
  pose proof (groupByRow_grouped _ _ _ _ _ Hph2) as (n2 & Hst2 & _).
  pose proof (mergeGroups_spec _ _ _ _ _ Hph3) as (Hf3 & Hdom & _).
  simpl in *.
  assert (Hn : s_none ∈ dom r1) by by eapply Hrec1.
  destruct (Hrows1 _ Hn) as (hdr & Hhdr & _ & Hl & _).
  exists g1, r1, σ1, g2, r2, σ2, merged, σ3, hdr.
  assert (Hal : ∀ l, p = Some l → l ∈ dom σ) by by eapply decodedType_allocated.
  assert (Hal1 : ∀ l, p = Some l → l ∈ dom σ1).
  { intros l Hl'. destruct Hst1 as [Hd _]. specialize (Hal l Hl'). set_solver. }
  destruct (fields_decodedType σ2 σ3 p) as [Ety Eti]; [by intros; apply Hf3|].
  assert (Hr3 : isRow σ3 p).
  { unfold isRow. rewrite Ety.
    rewrite (stable_decodedType σ1 σ2), (stable_decodedType σ σ1) by done. done. }
  assert (Ht3 : walkTitle σ3 p = s_none).
  { apply decodedTitle_walkTitle. rewrite Eti.
    rewrite (stable_decodedTitle σ1 σ2), (stable_decodedTitle σ σ1) by done. done. }
  unfold assemble in Hres.
  destruct (newGroupsBlock r2 merged (onlyInPs2 r1 r2)) as [tmp1 seen0] eqn:E1.
  destruct (existingGroupsBlock σ3 r1 r2 merged seen0 ps1) as [tmp2 seen1] eqn:E2.
  apply newGroupsBlock_spec in E1 as [Hseen0 _].
  assert (Hns : walkTitle σ3 p ∉ seen0).
  { rewrite Ht3. intros Hin%Hseen0. tauto. }
  destruct (walkLoop_first σ3 r1 r2 merged ps1 [] seen0 p Hp Hr3 Hns)
    as (a & b & q & _ & _ & Hw).
  unfold existingGroupsBlock in E2. rewrite E2 in Hw. simpl in Hw.
  rewrite Ht3 in Hw. unfold chooseHeader in Hw. rewrite Hl in Hw.
  assert (Hm : s_none ∈ dom merged) by (rewrite Hdom; set_solver).
  destruct top.
  - exists (tmp1 ++ a), b. split_and!; try done.
    rewrite Hres, Hw. by rewrite <- !app_assoc.
  - exists a, (b ++ tmp1). split_and!; try done.
    rewrite Hres, Hw. rewrite <- !app_assoc. simpl. by rewrite <- !app_assoc.
Qed.

End WholeProofs.

(** ** Further properties of [MergePanels] *)

Section MergeMore.
Context `{!JSON}.

(** One pass of the second loop for a non-nil incoming panel returns. *)
Lemma mergeStep_total maxY res p2 σ :
  p2 ≠ nilPanel → is_Some (mergeStep (maxY, res) p2 σ).
Proof.
  intros Hp. rewrite mergeStep_eq.
  destruct (overwriteAll_total p2 res σ Hp) as [[[res1 m] σ1] ->].
  destruct m; [done|]. destruct p2 as [l|]; [simpl; eauto | by destruct Hp].
Qed.

(** One pass for the nil map panics: at the first match, or at the
    append. *)
Lemma mergeStep_nil maxY res σ : mergeStep (maxY, res) nilPanel σ = None.
Proof.
  rewrite mergeStep_eq.
  destruct (overwriteAll nilPanel res σ) as [[[res1 m] σ1]|] eqn:E; [|done].
  destruct m; [|done].
  apply overwriteAll_spec in E as (_ & _ & Hm & _). by destruct Hm.
Qed.

Lemma mergeLoop_None qs : ∀ st σ,
  foldM mergeStep st qs σ = None ↔ nilPanel ∈ qs.
Proof.
  induction qs as [|q qs IH]; intros [maxY res] σ; cbn [foldM].
  - split; [done|]. by intros ?%elem_of_nil.
  - unfold bind. rewrite elem_of_cons.
    destruct (decide (q = nilPanel)) as [->|Hq].
    + rewrite mergeStep_nil. split; [by left | done].
    + destruct (mergeStep_total maxY res q σ Hq) as [[st1 σ1] ->].
      rewrite IH. split; [by right|]. by intros [?|?].
Qed.

Lemma baseLoop_Some ps σ :
  Forall (λ p, is_Some (Panel_GridPos σ p)) ps →
  ∃ gps, Forall2 (λ p g, Panel_GridPos σ p = Some g) ps gps.
Proof.
  induction 1 as [|p ps [g Hg] _ [gps IH]]; [by exists []|].
  exists (g :: gps). by constructor.
Qed.

(** X1. [MergePanels] panics exactly when the [gridPos] of a base panel
    does not decode or a panel of [incoming] is the nil map; in every
    other case it returns. *)
Theorem MergePanels_panics_iff (base incoming : list Panel) (σ : Heap) :
  MergePanels base incoming σ = None ↔
  (∃ p, p ∈ base ∧ Panel_GridPos σ p = None) ∨ nilPanel ∈ incoming.
Proof.
  destruct (decide (Forall (λ p, is_Some (Panel_GridPos σ p)) base)) as [Hb|Hb].
  - destruct (baseLoop_Some _ _ Hb) as [gps Hg].
    assert (MergePanels base incoming σ = None ↔
            foldM mergeStep (maxBottom gps, base) incoming σ = None) as ->.
    { destruct (foldM mergeStep (maxBottom gps, base) incoming σ)
        as [[[m r] σ']|] eqn:E.
      - split; [|done]. intros Hn.
        assert (MergePanels base incoming σ = Some (r, σ')) as Hs
          by (apply MergePanels_eq; eauto).
        congruence.
      - split; [done|]. intros _.
        destruct (MergePanels base incoming σ) as [[r σ']|] eqn:Em; [|done].
        apply MergePanels_eq in Em as (gps' & m' & Hg' & Hrun).
        assert (gps' = gps) as ->.
        { clear -Hg Hg'. revert gps' Hg'.
          induction Hg as [|p g ps gs Hpg _ IH]; intros gps' Hg'.
          - by apply Forall2_nil_inv_l in Hg'.
          - apply Forall2_cons_inv_l in Hg' as (g' & gs' & Hg1 & Hgs & ->).
            f_equal; [congruence | by apply IH]. }
        congruence. }
    rewrite mergeLoop_None. split; [by right|].
    intros [(p & Hp & Hn)|?]; [|done].
    rewrite Forall_forall in Hb. destruct (Hb p Hp) as [g Hg']. congruence.
  - split.
    + intros _. left. apply not_Forall_Exists in Hb; [|apply _].
      apply Exists_exists in Hb as (p & Hp & Hn). exists p. split; [done|].
      by apply eq_None_not_Some.
    + intros _. destruct (MergePanels base incoming σ) as [[r σ']|] eqn:Em; [|done].
      apply MergePanels_eq in Em as (gps & m' & Hg & _).
      exfalso. apply Hb. apply Forall_forall. intros p Hp.
      apply list_elem_of_lookup in Hp as [i Hi].
      destruct (Forall2_lookup_l _ _ _ _ _ Hg Hi) as (g & _ & Hpg). eauto.
Qed.

(** X2. Merging nothing returns the base sequence itself and writes
    nothing, provided the rectangles of the base decode. *)
Theorem MergePanels_nothing_incoming (base : list Panel) (σ : Heap) :
  Forall (λ p, is_Some (Panel_GridPos σ p)) base →
  MergePanels base [] σ = Some (base, σ).
Proof.
  intros Hb. destruct (baseLoop_Some _ _ Hb) as [gps Hg].
  apply MergePanels_eq. by exists gps, (maxBottom gps).
Qed.

(** X3. [MergePanels] writes only the fields [gridPos] and [id]: every
    other field of every panel, and the set of its fields apart from these
    two, is as before the call. *)
Theorem MergePanels_writes_only_gridPos_and_id
    (base incoming : list Panel) (σ : Heap) (res : list Panel) (σ' : Heap) :
  MergePanels base incoming σ = Some (res, σ') →
  ∀ p k, k ≠ s_gridPos → k ≠ s_id → field_ok σ' p k = field_ok σ p k.
Proof.
  intros Hrun. apply MergePanels_eq in Hrun as (gps & m & _ & Hrun).
  by eapply mergeLoop_fields.
Qed.

(** X4. No title and type is lost by [MergePanels]: every panel of the
    base and every incoming panel has a panel with its title and type in
    the result. *)
Theorem MergePanels_keeps_every_key
    (base incoming : list Panel) (σ : Heap) (res : list Panel) (σ' : Heap)
    (x : Panel) :
  MergePanels base incoming σ = Some (res, σ') →
  x ∈ base ++ incoming →
  ∃ r, r ∈ res ∧ Equals σ' r x = true.
Proof.
  intros Hrun Hx. apply MergePanels_eq in Hrun as (gps & m & _ & Hrun).
  pose proof (mergeLoop_fields _ _ _ _ _ _ _ Hrun) as Hf.
  apply elem_of_app in Hx.
  destruct (mergeLoop_covers _ _ _ _ _ _ _ Hrun x Hx) as (r & Hr & Hk).
  exists r. split; [done|]. apply Equals_true.
  rewrite !(key_of_field_ok σ σ') by (intros; by apply Hf). done.
Qed.

Lemma mergeLoop_from qs : ∀ maxY res σ maxY' res' σ',
  foldM mergeStep (maxY, res) qs σ = Some ((maxY', res'), σ') →
  ∀ r, r ∈ res' → r ∈ res ∨ r ∈ qs.
Proof.
  induction qs as [|q qs IH]; intros maxY res σ maxY' res' σ' Hrun r Hr;
    cbn [foldM] in Hrun.
  - inv_M. left. congruence.
  - apply bind_Some in Hrun as ([m1 res1] & σ1 & Hs & Hrest).
    destruct (IH _ _ _ _ _ _ Hrest r Hr) as [H1|H1]; [|right; by right].
    rewrite mergeStep_eq in Hs.
    destruct (overwriteAll q res σ) as [[[res2 m] σ2]|] eqn:E; [|done].
    apply overwriteAll_spec in E as (-> & _).
    assert (∀ y, y ∈ (λ r0, if Equals σ r0 q then q else r0) <$> res →
                 y ∈ res ∨ y = q) as Hmap.
    { intros y (z & -> & Hz)%list_elem_of_fmap.
      destruct (Equals σ z q); auto. }
    destruct m.
    + injection Hs as <- <- <-.
      destruct (Hmap r H1) as [?| ->]; [by left | right; by left].
    + destruct (assign q s_gridPos _ σ2) as [[[] σ3]|]; [|done].
      injection Hs as <- <- <-.
      apply elem_of_app in H1 as [H1|H1].
      * destruct (Hmap r H1) as [?| ->]; [by left | right; by left].
      * apply list_elem_of_singleton in H1 as ->. right; by left.
Qed.

(** X5. [MergePanels] invents no panel and drops no slot: every panel of
    the result is a panel of the base or of [incoming], and the result has
    at least the slots of the base and at most one more for each incoming
    panel. *)
Theorem MergePanels_result_from_inputs
    (base incoming : list Panel) (σ : Heap) (res : list Panel) (σ' : Heap) :
  MergePanels base incoming σ = Some (res, σ') →
  (∀ r, r ∈ res → r ∈ base ∨ r ∈ incoming) ∧
  length base ≤ length res ≤ length base + length incoming.
Proof.
  intros Hrun. apply MergePanels_eq in Hrun as (gps & m & _ & Hrun).
  split; [by eapply mergeLoop_from|].
  apply mergeLoop_prefix in Hrun as (_ & (n & -> & Hn & _) & _). lia.
Qed.

Lemma mergeLoop_slots qs : ∀ maxY res σ maxY' res' σ',
  foldM mergeStep (maxY, res) qs σ = Some ((maxY', res'), σ') →
  ∀ i r, res !! i = Some r →
  ∃ r', res' !! i = Some r' ∧ key σ r' = key σ r.
Proof.
  induction qs as [|q qs IH]; intros maxY res σ maxY' res' σ' Hrun i r Hi;
    cbn [foldM] in Hrun.
  - inv_M. exists r. split; congruence.
  - apply bind_Some in Hrun as ([m1 res1] & σ1 & Hs & Hrest).
    pose proof (mergeStep_key _ _ _ _ _ _ _ Hs) as Hk.
    rewrite mergeStep_eq in Hs.
    destruct (overwriteAll q res σ) as [[[res2 m] σ2]|] eqn:E; [|done].
    apply overwriteAll_spec in E as (-> & _).
    set (f := λ r0, if Equals σ r0 q then q else r0) in *.
    assert (key σ (f r) = key σ r) as Hfr.
    { unfold f. destruct (Equals σ r q) eqn:Eq; [|done].
      by apply Equals_true in Eq. }
    assert (res1 !! i = Some (f r)) as Hi1.
    { destruct m.
      - injection Hs as <- <- <-. by rewrite list_lookup_fmap, Hi.
      - destruct (assign q s_gridPos _ σ2) as [[[] σ3]|]; [|done].
        injection Hs as <- <- <-. apply lookup_app_l_Some.
        by rewrite list_lookup_fmap, Hi. }
    destruct (IH _ _ _ _ _ _ Hrest i (f r) Hi1) as (r' & Hr' & Hkr).
    exists r'. split; [done|]. rewrite !Hk in Hkr. congruence.
Qed.

(** X6. The slots of the base keep their order and their identity: slot
    [i] of the result holds a panel with the title and type of the [i]-th
    base panel. *)
Theorem MergePanels_base_slots_keep_key
    (base incoming : list Panel) (σ : Heap) (res : list Panel) (σ' : Heap)
    (i : nat) (p : Panel) :
  MergePanels base incoming σ = Some (res, σ') →
  base !! i = Some p →
  ∃ r, res !! i = Some r ∧ Equals σ' r p = true.
Proof.
  intros Hrun Hi. apply MergePanels_eq in Hrun as (gps & m & _ & Hrun).
  pose proof (mergeLoop_fields _ _ _ _ _ _ _ Hrun) as Hf.
  destruct (mergeLoop_slots _ _ _ _ _ _ _ Hrun i p Hi) as (r & Hr & Hk).
  exists r. split; [done|]. apply Equals_true.
  rewrite !(key_of_field_ok σ σ') by (intros; by apply Hf). done.
Qed.

(** X7. A base panel that no incoming panel matches is untouched: it
    stays in its slot and all its fields, [gridPos] and [id] included, are
    as before the call. *)
Theorem MergePanels_unmatched_base_untouched
    (base incoming : list Panel) (σ : Heap) (res : list Panel) (σ' : Heap)
    (i : nat) (p : Panel) :
  MergePanels base incoming σ = Some (res, σ') →
  base !! i = Some p →
  (∀ q, q ∈ incoming → Equals σ q p = false) →
  res !! i = Some p ∧ ∀ k, field σ' p k = field σ p k.
Proof.
  intros Hrun Hi Hno. apply MergePanels_eq in Hrun as (gps & m & _ & Hrun).
  by eapply mergeLoop_keeps.
Qed.

(** X8. [Equals] is an equivalence on panels: it compares the bytes of
    the title and of the type, an absent field and the nil map reading as
    no bytes. *)
Theorem Equals_equivalence (σ : Heap) :
  (∀ p, Equals σ p p = true) ∧
  (∀ p q, Equals σ p q = Equals σ q p) ∧
  (∀ p q r, Equals σ p q = true → Equals σ q r = true → Equals σ p r = true).
Proof.
  split_and!.
  - apply Equals_refl.
  - intros p q. rewrite !Equals_key. apply bool_decide_ext. naive_solver.
  - intros p q r. rewrite !Equals_true. congruence.
Qed.

End MergeMore.

(** ** Further properties of [groupByRow] *)

Lemma stable_weaken ks ks' σ σ' :
  (∀ k, k ∈ ks → k ∈ ks') → stable ks σ σ' → stable ks' σ σ'.
Proof.
  intros Hs [Hd Hf]. split; [done|]. intros l k Hl Hk. apply Hf; [done|].
  intros Hin. apply Hk, Hs, Hin.
Qed.

Lemma flat_written σ σ' :
  stable [s_panels; s_collapsed] σ σ' → stable written σ σ'.
Proof. apply stable_weaken. unfold written. set_solver. Qed.

Section GroupMore.
Context `{!JSON}.

Lemma rowGroupName_default σ p current :
  rowGroupName σ p current = default current (decodedTitle σ p).
Proof.
  unfold rowGroupName, decodedTitle.
  destruct (TitleRaw σ p) as [tr|]; [|done]. by destruct (unmarshal_string tr).
Qed.

(** What a row marker's step writes. *)
Lemma groupStep_row_fields st l σ st' σ' :
  isRow σ (Some l) → groupStep st (Some l) σ = Some (st', σ') →
  rows st' = <[default (groupName st) (decodedTitle σ (Some l)) := Some l]> (rows st) ∧
  dom σ ⊆ dom σ' ∧ l ∈ dom σ' ∧
  field σ' (Some l) s_panels = raw_empty_array ∧
  field σ' (Some l) s_collapsed = raw_false ∧
  (∀ k, k ≠ s_panels → k ≠ s_collapsed →
        field_ok σ' (Some l) k = field_ok σ (Some l) k) ∧
  (∀ l' k, l' ≠ l → l' ∈ dom σ →
        field_ok σ' (Some l') k = field_ok σ (Some l') k).
Proof.
  intros Hrow Hstep.
  pose proof (decodedType_allocated _ _ _ Hrow l eq_refl) as Hal.
  destruct (retrieveEmbeddedPanels_spec (Some l) σ) as (emb & σ1 & Hemb & [Hd1 Hf1]).
  unfold isRow, decodedType in Hrow.
  unfold groupStep, bind, get_heap in Hstep.
  destruct (TypeRaw σ (Some l)) as [t|]; [|done].
  rewrite Hrow, String.eqb_refl, Hemb in Hstep.
  unfold assign, ret in Hstep. injection Hstep as <- <-.
  rewrite rowGroupName_default. split_and!.
  - done.
  - rewrite !dom_insert. set_solver.
  - rewrite !dom_insert. set_solver.
  - rewrite field_assign_other_key by done. apply field_assign_same.
  - apply field_assign_same.
  - intros k Hk1 Hk2. rewrite !field_ok_assign.
    rewrite !decide_False by naive_solver. simpl. apply Hf1; set_solver.
  - intros l' k Hl' Hin. rewrite !field_ok_assign.
    rewrite !decide_False by naive_solver. simpl. apply Hf1; set_solver.
Qed.

Lemma groupStep_flattened σ0 st σ p st' σ' :
  flattened σ0 st σ → groupStep st p σ = Some (st', σ') → flattened σ0 st' σ'.
Proof.
  intros (Hst & Hcont & Hrows) Hstep.
  destruct (decodedType σ p) as [ty|] eqn:Ety.
  2:{ rewrite groupStep_skip in Hstep by done. by injection Hstep as <- <-. }
  destruct (decide (ty = s_row)) as [->|Hne].
  2:{ rewrite groupStep_content in Hstep by (by exists ty).
      by injection Hstep as <- <-. }
  destruct p as [l|]; [|done].
  assert (Hrow : isRow σ (Some l)) by done.
  destruct (groupStep_row_fields _ _ _ _ _ Hrow Hstep)
    as (Hr & Hd & Hl & Hp & Hc & Hown & Hoth).
  destruct Hst as [Hd0 Hf0].
  split_and!.
  - split; [set_solver|]. intros l0 k Hl0 Hk.
    rewrite <- (Hf0 l0 k Hl0 Hk).
    destruct (decide (l0 = l)) as [->|Hn].
    + apply (Hown k); set_solver.
    + apply (Hoth l0 k); [done | set_solver].
  - intros l0 Hl0 Hnr. rewrite <- (Hcont l0 Hl0 Hnr).
    assert (l0 ≠ l) as Hn.
    { intros ->. apply Hnr. unfold isRow.
      rewrite <- (stable_decodedType σ0 σ (Some l)); [done | |].
      - by apply flat_written.
      - by intros ? [= <-]. }
    apply map_eq. intros k. apply (Hoth l0 k); [done | set_solver].
  - intros name q Hq. rewrite Hr in Hq.
    apply lookup_insert_Some in Hq as [[_ <-]|[_ Hq]]; [by eauto|].
    destruct (Hrows name q Hq) as ((lq & -> & Hlq) & Hqp & Hqc).
    split; [exists lq; split; [done | set_solver]|].
    destruct (decide (lq = l)) as [->|Hn]; [done|].
    unfold field. by rewrite !(Hoth lq) by done.
Qed.

Lemma groupByRow_flattened ps σ g r σ' :
  groupByRow ps σ = Some ((g, r), σ') →
  ∃ name, flattened σ (mkGroupState g r name) σ'.
Proof.
  unfold groupByRow. intros Hrun.
  apply bind_Some in Hrun as (st & σ1 & Hloop & Hret). inv_M.
  exists (groupName st).
  replace (mkGroupState (groups st) (rows st) (groupName st)) with st
    by by destruct st.
  revert Hloop.
  apply (foldM_inv groupStep (λ _ st σc, flattened σ st σc)).
  - split_and!; [apply stable_refl | done |]. intros name p Hp.
    simpl in Hp. by rewrite lookup_empty in Hp.
  - intros done a s σa s' σa' _ HI Hs. by eapply groupStep_flattened.
Qed.

(** X9. [groupByRow] never panics, whatever the panels are (nil maps,
    panels without type or title, rows whose nested panels do not
    decode). *)
Theorem groupByRow_never_panics (ps : list Panel) (σ : Heap) :
  ∃ g r σ', groupByRow ps σ = Some ((g, r), σ').
Proof.
  destruct (groupByRow_total ps σ) as [[[g r] σ'] Hrun]. by exists g, r, σ'.
Qed.

(** X10. [groupByRow] writes only the fields [panels] and [collapsed],
    and only in row markers: every other field of every object is as
    before, and an object that is not a row marker is not written at
    all. *)
Theorem groupByRow_writes_only_row_markers
    (ps : list Panel) (σ : Heap)
    (g : gmap string (list Panel)) (r : gmap string Panel) (σ' : Heap) :
  groupByRow ps σ = Some ((g, r), σ') →
  stable [s_panels; s_collapsed] σ σ' ∧
  (∀ l, l ∈ dom σ → ¬ isRow σ (Some l) → deref σ' l = deref σ l).
Proof.
  intros Hrun. apply groupByRow_flattened in Hrun as (name & Hst & Hc & _).
  done.
Qed.

(** X11. Every row header that [groupByRow] records is a row marker of
    the input, left flattened and expanded: its [panels] is [[]] and its
    [collapsed] is [false]. *)
Theorem groupByRow_rows_flattened
    (ps : list Panel) (σ : Heap)
    (g : gmap string (list Panel)) (r : gmap string Panel) (σ' : Heap)
    (name : string) (p : Panel) :
  groupByRow ps σ = Some ((g, r), σ') →
  r !! name = Some p →
  p ∈ ps ∧ isRow σ' p ∧
  field σ' p s_panels = raw_empty_array ∧
  field σ' p s_collapsed = raw_false.
Proof.
  intros Hrun Hp.
  pose proof (groupByRow_flattened _ _ _ _ _ Hrun) as (n1 & _ & _ & Hrows).
  apply groupByRow_grouped in Hrun as (n2 & _ & _ & _ & _ & _ & Hin & _).
  simpl in *.
  destruct (Hin name) as (q & Hq & Hrow & Hlook & _); [by apply elem_of_dom|].
  assert (q = p) as -> by congruence.
  destruct (Hrows name p Hp) as (_ & ? & ?). done.
Qed.

(** Without row markers the loop fills the one group ["none"]. *)
Lemma groupLoop_without_rows ps : ∀ g σ,
  Forall (λ p, ¬ isRow σ p) ps →
  foldM groupStep (mkGroupState g ∅ s_none) ps σ =
  Some (mkGroupState
          (match typed σ ps with
           | [] => g
           | _ => <[s_none := group_of g s_none ++ typed σ ps]> g
           end) ∅ s_none, σ).
Proof.
  induction ps as [|p ps IH]; intros g σ Hps; cbn [foldM]; [done|].
  apply Forall_cons in Hps as [Hp Hps]. unfold bind, typed.
  destruct (decodedType σ p) as [ty|] eqn:Ety.
  - rewrite groupStep_content.
    2:{ exists ty. split; [done|]. intros ->. by apply Hp. }
    rewrite filter_cons_True by (by rewrite Ety). cbn [groups rows groupName].
    rewrite (IH _ _ Hps). unfold typed. do 2 f_equal.
    destruct (filter _ ps) as [|q l]; [done|].
    rewrite group_of_insert, decide_True by done.
    rewrite insert_insert_eq. by rewrite <- app_assoc.
  - rewrite groupStep_skip by done.
    rewrite filter_cons_False by (rewrite Ety; by intros [? ?]).
    apply (IH _ _ Hps).
Qed.

(** X12. A dashboard without row markers is one group: [groupByRow]
    returns the group ["none"] holding, in order, the panels whose type
    decodes (no group at all when there is none), records no row and
    writes nothing. *)
Theorem groupByRow_without_rows (ps : list Panel) (σ : Heap) :
  Forall (λ p, ¬ isRow σ p) ps →
  groupByRow ps σ =
  Some ((match typed σ ps with
         | [] => ∅
         | l => {[s_none := l]}
         end, ∅), σ).
Proof.
  intros Hps. unfold groupByRow, bind.
  rewrite (groupLoop_without_rows ps ∅ σ Hps). unfold ret. simpl.
  destruct (typed σ ps) as [|q l]; [done|].
  by rewrite insert_empty.
Qed.

End GroupMore.

(** ** Further properties of the repacking pass *)

Lemma bind_eq {A B} (m : M A) (k : A → M B) σ a σ1 :
  m σ = Some (a, σ1) → bind m k σ = k a σ1.
Proof. unfold bind. by intros ->. Qed.

Lemma bind_None {A B} (m : M A) (k : A → M B) σ :
  m σ = None → bind m k σ = None.
Proof. unfold bind. by intros ->. Qed.

Section RepackWithin.
Local Open Scope Z_scope.

Lemma placeAll_within gs : ∀ st,
  0 ≤ currentRowWidth st ≤ maxWidth →
  Forall (λ g, 0 ≤ W g ≤ maxWidth) gs →
  Forall (λ g, 0 ≤ X g ∧ X g + W g ≤ maxWidth) (placeAll st gs).
Proof.
  induction gs as [|g gs IH]; intros st Hst Hgs; cbn [placeAll]; [constructor|].
  apply Forall_cons in Hgs as [Hg Hgs]. unfold maxWidth in *.
  assert (add64 (currentRowWidth st) (W g) = currentRowWidth st + W g) as Ea
    by (unfold add64; apply wrap64_small; lia).
  assert (add64 0 (W g) = W g) as E0
    by (unfold add64; rewrite wrap64_small; lia).
  destruct (Z.lt_ge_cases 24 (add64 (currentRowWidth st) (W g))) as [Hlt|Hge].
  - rewrite place_new_row by done. constructor; [simpl; lia|].
    apply IH; [|done]. simpl. unfold maxWidth. lia.
  - rewrite place_same_row by done. constructor; [simpl; lia|].
    apply IH; [|done]. simpl. unfold maxWidth. lia.
Qed.

End RepackWithin.

Section RepackMore.
Context `{!JSON}.

Lemma Panel_GridPos_ext σ σ' p :
  field_ok σ' p s_gridPos = field_ok σ p s_gridPos →
  Panel_GridPos σ' p = Panel_GridPos σ p.
Proof. unfold Panel_GridPos. by intros ->. Qed.

Lemma repackStep_inv placed0 st p σ pl1 st1 σ1 :
  repackStep (placed0, st) p σ = Some ((pl1, st1), σ1) →
  ∃ g l, Panel_GridPos σ p = Some g ∧ p = Some l ∧
         pl1 = placed0 ++ [(place st g).1] ∧ st1 = (place st g).2 ∧
         σ1 = <[l := <[s_gridPos := Some (marshal_GridPos (place st g).1)]>
                       (deref σ l)]> σ.
Proof.
  unfold repackStep, GridPosM, bind, get_heap, liftO. intros Hs.
  destruct (Panel_GridPos σ p) as [g|]; [|done]. unfold ret at 1 in Hs.
  destruct (place st g) as [g' st2] eqn:Ep.
  destruct (assign p s_gridPos _ σ) as [[[] σ2]|] eqn:Ea; [|done].
  injection Hs as <- <- <-. apply assign_Some in Ea as (l & -> & ->).
  exists g, l. by rewrite Ep.
Qed.

Lemma repackLoop_frame res : ∀ st σ st' σ',
  foldM repackStep st res σ = Some (st', σ') →
  ∀ q, q ∉ res → ∀ k, field_ok σ' q k = field_ok σ q k.
Proof.
  induction res as [|p res IH]; intros [pl st] σ st' σ' Hrun q Hq k;
    cbn [foldM] in Hrun.
  - by inv_M.
  - apply bind_Some in Hrun as ([pl1 st1] & σ1 & Hs & Hrest).
    apply not_elem_of_cons in Hq as [Hqp Hq].
    rewrite (IH _ _ _ _ Hrest q Hq).
    apply repackStep_inv in Hs as (g & l & _ & -> & _ & _ & ->).
    rewrite field_ok_assign. rewrite decide_False; [done | naive_solver].
Qed.

Lemma repackLoop_sizes res : ∀ placed0 st σ placed st' σ' σ0,
  NoDup res →
  (∀ q, q ∈ res → Panel_GridPos σ q = Panel_GridPos σ0 q) →
  foldM repackStep (placed0, st) res σ = Some ((placed, st'), σ') →
  ∃ new, placed = placed0 ++ new ∧
    Forall2 (λ p g', ∃ g, Panel_GridPos σ0 p = Some g ∧
                          H g' = H g ∧ W g' = W g ∧
                          GridPosRaw σ' p = Some (marshal_GridPos g'))
            res new.
Proof.
  induction res as [|p res IH]; intros placed0 st σ placed st' σ' σ0 Hnd Hsame Hrun;
    cbn [foldM] in Hrun.
  - inv_M. exists []. split; [|constructor].
    rewrite app_nil_r. congruence.
  - apply bind_Some in Hrun as ([pl1 st1] & σ1 & Hs & Hrest).
    apply NoDup_cons in Hnd as [Hp Hnd].
    apply repackStep_inv in Hs as (g & l & Hg & -> & -> & -> & ->).
    match type of Hrest with
    | foldM _ _ _ ?τ = _ =>
        assert (∀ q, q ∈ res → Panel_GridPos τ q = Panel_GridPos σ0 q) as Hs2
    end.
    { intros q Hq. rewrite <- (Hsame q) by (by right).
      apply Panel_GridPos_ext. rewrite field_ok_assign.
      rewrite decide_False; [done|]. intros [-> _]. done. }
    destruct (IH _ _ _ _ _ _ σ0 Hnd Hs2 Hrest) as (new & -> & Hnew).
    exists ((place st g).1 :: new). split; [by rewrite <- app_assoc|].
    constructor; [|done].
    exists g. split_and!.
    + rewrite <- Hg. symmetry. apply Hsame. by left.
    + done.
    + done.
    + unfold GridPosRaw, field.
      rewrite (repackLoop_frame _ _ _ _ _ Hrest (Some l) Hp).
      rewrite field_ok_assign. by rewrite decide_True.
Qed.



(** X13. The repacking pass writes only the field [gridPos], and only
    in the panels of the sequence it is given. *)
Theorem repack_writes_only_gridPos
    (res : list Panel) (σ : Heap) (placed : list GridPos) (σ' : Heap) :
  repack res σ = Some (placed, σ') →
  (∀ p k, k ≠ s_gridPos → field_ok σ' p k = field_ok σ p k) ∧
  (∀ p k, p ∉ res → field_ok σ' p k = field_ok σ p k).
Proof.
  intros Hrun. split; [by eapply repack_fields|].
  unfold repack in Hrun.
  apply bind_Some in Hrun as ([pl st] & σ1 & Hloop & Hret). inv_M.
  intros p k Hp. by eapply repackLoop_frame.
Qed.

(** X14. When the widths are between 0 and 24, every rectangle the
    repacking pass writes lies inside the grid: it starts at a column
    [x ≥ 0] and ends at a column [x + w ≤ 24]. *)
Theorem repack_within_grid
    (res : list Panel) (σ : Heap) (placed : list GridPos) (σ' : Heap) :
  repack res σ = Some (placed, σ') →
  Forall (λ g, 0 ≤ W g ≤ maxWidth)%Z placed →
  Forall (λ g, 0 ≤ X g ∧ X g + W g ≤ maxWidth)%Z placed.
Proof.
  intros Hrun Hw. unfold repack in Hrun.
  apply bind_Some in Hrun as ([pl st] & σ1 & Hloop & Hret). inv_M.
  apply repackLoop_spec in Hloop as (gs & _ & ->). simpl in *.
  apply placeAll_within; [unfold maxWidth; simpl; lia|].
  pose proof (placeAll_same_size repackInit gs) as Hsz.
  apply Forall_forall. intros g Hg.
  apply list_elem_of_lookup in Hg as [i Hi].
  destruct (Forall2_lookup_r _ _ _ _ _ Hsz Hi) as (g' & Hi' & HW & _).
  rewrite Forall_forall in Hw. rewrite <- HW. apply Hw.
  by eapply list_elem_of_lookup_2.
Qed.

(** X15. When no panel occurs twice in the sequence, the repacking pass
    moves each panel and keeps its size: the rectangle written to the
    [i]-th panel, which is the [gridPos] the panel holds afterwards, has
    the height and the width of the rectangle the panel had. *)
Theorem repack_keeps_sizes
    (res : list Panel) (σ : Heap) (placed : list GridPos) (σ' : Heap) :
  NoDup res →
  repack res σ = Some (placed, σ') →
  Forall2 (λ p g', ∃ g, Panel_GridPos σ p = Some g ∧
                        H g' = H g ∧ W g' = W g ∧
                        GridPosRaw σ' p = Some (marshal_GridPos g'))
          res placed.
Proof.
  intros Hnd Hrun. unfold repack in Hrun.
  apply bind_Some in Hrun as ([pl st] & σ1 & Hloop & Hret). inv_M.
  destruct (repackLoop_sizes _ _ _ _ _ _ _ σ Hnd (λ _ _, eq_refl) Hloop)
    as (new & -> & Hnew).
  done.
Qed.

End RepackMore.

(** ** Decoded panels are new objects *)

Lemma allocPanels_fresh os : ∀ σ ps σ',
  allocPanels os σ = Some (ps, σ') →
  stable [] σ σ' ∧ NoDup (locs ps) ∧
  (∀ l, l ∈ locs ps → (l ∉ dom σ) ∧ l ∈ dom σ') ∧
  Forall2 (λ o p, match o with
                  | Some m => ∃ l, p = Some l ∧ deref σ' l = m
                  | None => p = nilPanel
                  end) os ps.
Proof.
  induction os as [|o os IH]; intros σ ps σ' Hrun; cbn [allocPanels] in Hrun.
  - apply ret_Some in Hrun as [<- <-].
    split_and!; [apply stable_refl | constructor | | constructor].
    intros l Hl. by apply elem_of_nil in Hl.
  - apply bind_Some in Hrun as (p & σ1 & Hp & Hrun).
    apply bind_Some in Hrun as (ps' & σ2 & Hps & Hret).
    apply ret_Some in Hret as [<- <-].
    destruct (IH _ _ _ Hps) as (Hst & Hnd & Hfr & Hall).
    destruct o as [m|]; simpl in Hp.
    + injection Hp as <- <-.
      set (l := fresh (dom σ)) in *.
      assert (l ∉ dom σ) as Hl by apply is_fresh.
      assert (stable [] σ (<[l := m]> σ)) as Hst1.
      { split; [rewrite dom_insert; set_solver|].
        intros l0 k Hl0 _. rewrite deref_insert.
        rewrite decide_False; [done|]. by intros <-. }
      assert (l ∈ dom (<[l := m]> σ)) as Hl1 by (rewrite dom_insert; set_solver).
      split_and!.
      * by eapply stable_trans.
      * cbn. apply NoDup_cons. split; [|done].
        intros Hin. by destruct (Hfr l Hin).
      * cbn. intros l0 [->|Hin]%elem_of_cons.
        -- split; [done|]. destruct Hst as [Hd _]. set_solver.
        -- destruct (Hfr l0 Hin) as [Hn ?]. split; [|done].
           destruct Hst1 as [Hd _]. set_solver.
      * constructor; [|done]. exists l. split; [done|].
        apply map_eq. intros k. destruct Hst as [_ Hf].
        rewrite Hf by (done || set_solver).
        by rewrite deref_insert, decide_True.
    + apply ret_Some in Hp as [<- <-]. cbn. split_and!; try done.
      by constructor.
Qed.

Section DecodeMore.
Context `{!JSON}.

(** X16. [Dashboard.Panels] panics exactly when the dashboard has a
    [panels] entry that does not decode as a list of panels. *)
Theorem Dashboard_Panels_panics_iff (d : Dashboard) (σ : Heap) :
  Dashboard_Panels d σ = None ↔
  ∃ raw, d !! s_panels = Some raw ∧ unmarshal_Panels (bytes raw) = None.
Proof.
  unfold Dashboard_Panels. destruct (d !! s_panels) as [raw|].
  - destruct (unmarshal_Panels (bytes raw)) as [objs|] eqn:E.
    + destruct (allocPanels_spec objs σ) as (ps & σ' & -> & _).
      split; [done|]. intros (raw' & [= <-] & Hn). congruence.
    + split; [eauto | done].
  - split; [done|]. by intros (raw & [=] & _).
Qed.

(** X17. The panels that [Dashboard.Panels] returns are new objects:
    the non-nil ones are pairwise distinct, none was in the heap before,
    and no object that was in the heap is changed. Two panels read from
    dashboards never share a map. *)
Theorem Dashboard_Panels_fresh
    (d : Dashboard) (σ : Heap) (ps : list Panel) (σ' : Heap) :
  Dashboard_Panels d σ = Some (ps, σ') →
  stable [] σ σ' ∧ NoDup (locs ps) ∧
  (∀ l, l ∈ locs ps → (l ∉ dom σ) ∧ l ∈ dom σ').
Proof.
  unfold Dashboard_Panels. destruct (d !! s_panels) as [raw|].
  - destruct (unmarshal_Panels (bytes raw)) as [objs|]; [|done].
    intros Hrun. by apply allocPanels_fresh in Hrun as (? & ? & ? & _).
  - intros [<- <-]%ret_Some. split_and!; [apply stable_refl | constructor |].
    intros l Hl. by apply elem_of_nil in Hl.
Qed.

End DecodeMore.

(** ** Further properties of [MergePanelsByGroup] *)

Section WholeMore.
Context `{!JSON} `{!MapRange}.

Lemma range_keys_singleton {V} site (k : string) (v : V) :
  range_keys site ({[k := v]} : gmap string V) = [k].
Proof.
  unfold range_keys. rewrite dom_singleton_L, elements_singleton.
  apply Permutation_singleton_r, range_order_perm.
Qed.

Lemma range_keys_empty {V} site : range_keys site (∅ : gmap string V) = [].
Proof.
  unfold range_keys. rewrite dom_empty_L, elements_empty.
  apply Permutation_nil_r, range_order_perm.
Qed.

(** X19. [mergeGroups]: a group that only one side has is carried over
    as it is, without a call of [MergePanels]; a name that neither side
    has gets no group. *)
Theorem mergeGroups_one_sided
    (g1 g2 : gmap string (list Panel)) (σ : Heap)
    (merged : gmap string (list Panel)) (σ' : Heap) (name : string) :
  mergeGroups g1 g2 σ = Some (merged, σ') →
  (g2 !! name = None → merged !! name = g1 !! name) ∧
  (g1 !! name = None → merged !! name = g2 !! name).
Proof.
  unfold mergeGroups. intros Hrun.
  apply bind_Some in Hrun as (m1 & σ1 & Hloop & Hret).
  apply ret_Some in Hret as [<- <-].
  assert (Hfirst : dom m1 = dom g1 ∧ ∀ n, g2 !! n = None → m1 !! n = g1 !! n).
  { pose (I := λ (dn : list string) (m : gmap string (list Panel)) (τ : Heap),
        dom m = list_to_set dn ∧
        (∀ n, n ∈ dn → g2 !! n = None → m !! n = g1 !! n)).
    assert (I (range_keys 1 g1) m1 σ1) as (Hd & Hc).
    { refine (foldM_inv _ I _ _ _ _ _ _ _ Hloop).
      - split; [set_solver|]. intros n Hn. by apply elem_of_nil in Hn.
      - intros dn a m τ m' τ' (rest & Hrest) (Hd & Hc) Hs.
        assert (a ∈ dom g1) as Ha.
        { apply (range_keys_elem 1). rewrite Hrest. set_solver. }
        apply elem_of_dom in Ha as [la Hla].
        unfold mergeGroupStep in Hs.
        destruct (g2 !! a) as [g2l|] eqn:Eg2.
        + apply bind_Some in Hs as (r & τ1 & _ & Hret).
          apply ret_Some in Hret as [<- <-]. split.
          * rewrite dom_insert_L, list_to_set_app_L, Hd. set_solver.
          * intros n Hn Hg2. assert (n ≠ a) by congruence.
            rewrite lookup_insert_ne by done. apply Hc; [|done]. set_solver.
        + apply ret_Some in Hs as [<- <-]. split.
          * rewrite dom_insert_L, list_to_set_app_L, Hd. set_solver.
          * intros n Hn Hg2. destruct (decide (n = a)) as [->|Hne].
            -- rewrite lookup_insert_eq. unfold group_of. by rewrite Hla.
            -- rewrite lookup_insert_ne by done. apply Hc; [|done]. set_solver. }
    assert (dom m1 = dom g1) as Hdom.
    { rewrite Hd. apply set_eq. intros n.
      rewrite elem_of_list_to_set. apply range_keys_elem. }
    split; [done|]. intros n Hg2.
    destruct (decide (n ∈ dom g1)) as [Hin|Hout].
    - apply Hc; [|done]. by apply range_keys_elem.
    - rewrite (proj1 (not_elem_of_dom g1 n) Hout).
      apply not_elem_of_dom. by rewrite Hdom. }
  destruct Hfirst as [Hdom1 Hc1].
  pose (J := λ (dn : list string) (m : gmap string (list Panel)),
      (∀ n, is_Some (m1 !! n) → m !! n = m1 !! n) ∧
      (∀ n, m1 !! n = None → n ∉ dn → m !! n = None) ∧
      (∀ n, m1 !! n = None → n ∈ dn → m !! n = Some (group_of g2 n))).
  assert (J (range_keys 2 g2) (foldl (addGroupStep g2) m1 (range_keys 2 g2)))
    as (Hk1 & Hk2 & Hk3).
  { apply foldl_inv.
    - split_and!; [done | done |]. intros n _ Hn. by apply elem_of_nil in Hn.
    - intros dn a m _ (Hj1 & Hj2 & Hj3). unfold addGroupStep.
      destruct (m !! a) as [la|] eqn:Ema.
      + split_and!; [done | |].
        * intros n Hn Hnin. apply Hj2; [done|]. set_solver.
        * intros n Hn [Hin|Hin%list_elem_of_singleton]%elem_of_app; [auto|].
          subst n. destruct (decide (a ∈ dn)) as [Hd|Hd]; [auto|].
          rewrite (Hj2 a Hn Hd) in Ema. done.
      + split_and!.
        * intros n Hn. assert (n ≠ a).
          { intros ->. rewrite (Hj1 a Hn) in Ema. by destruct Hn as [? Hn]; rewrite Hn in Ema. }
          rewrite lookup_insert_ne by done. auto.
        * intros n Hn Hnin. assert (n ≠ a) by set_solver.
          rewrite lookup_insert_ne by done. apply Hj2; [done|]. set_solver.
        * intros n Hn Hin. destruct (decide (n = a)) as [->|Hne].
          -- by rewrite lookup_insert_eq.
          -- rewrite lookup_insert_ne by done. apply Hj3; [done|].
             apply elem_of_app in Hin as [?|Hin%list_elem_of_singleton]; done. }
  split.
  - intros Hg2. rewrite <- (Hc1 name Hg2).
    destruct (m1 !! name) as [l|] eqn:Em1; [rewrite <- Em1; apply Hk1; by rewrite Em1|].
    apply Hk2; [done|]. rewrite range_keys_elem. by apply not_elem_of_dom.
  - intros Hg1.
    assert (m1 !! name = None) as Em1.
    { apply not_elem_of_dom. rewrite Hdom1. by apply not_elem_of_dom. }
    destruct (g2 !! name) as [l|] eqn:Eg2.
    + rewrite Hk3; [unfold group_of; by rewrite Eg2 | done |].
      rewrite range_keys_elem. apply elem_of_dom. eauto.
    + apply Hk2; [done|]. rewrite range_keys_elem. by apply not_elem_of_dom.
Qed.

(** X20. [MergePanelsByGroup] writes only the fields [gridPos], [id],
    [panels] and [collapsed]: every other field of every object that was
    in the heap, its title and its type among them, is as before the
    call. *)
Theorem MergePanelsByGroup_writes_four_fields
    (ps1 ps2 : list Panel) (top : bool) (σ : Heap)
    (res : list Panel) (σ' : Heap) :
  MergePanelsByGroup ps1 ps2 top σ = Some (res, σ') →
  ∀ l k, l ∈ dom σ → k ∉ written →
         field_ok σ' (Some l) k = field_ok σ (Some l) k.
Proof.
  intros Hrun l k Hl Hk.
  apply MergePanelsByGroup_eq in Hrun
    as (g1 & r1 & σ1 & g2 & r2 & σ2 & merged & σ3 & placed
        & Hp1 & Hp2 & Hp3 & Hres & Hp5).
  apply groupByRow_grouped in Hp1 as (n1 & Hst1 & _).
  apply groupByRow_grouped in Hp2 as (n2 & Hst2 & _).
  apply mergeGroups_spec in Hp3 as (Hf3 & _).
  pose proof (repack_fields _ _ _ _ Hp5) as Hf5.
  assert (k ≠ s_gridPos ∧ k ≠ s_id) as [Hg Hi].
  { unfold written in Hk. set_solver. }
  rewrite Hf5, Hf3 by done.
  rewrite (stable_field_ok written σ1 σ2), (stable_field_ok written σ σ1);
    try done.
  - by intros ? [= <-].
  - intros ? [= <-]. destruct Hst1 as [Hd _]. set_solver.
Qed.

Lemma mergeGroups_none c1 c2 σ :
  mergeGroups {[s_none := c1]} {[s_none := c2]} σ =
  match MergePanels c1 c2 σ with
  | Some (r, σ') => Some ({[s_none := r]}, σ')
  | None => None
  end.
Proof.
  unfold mergeGroups. rewrite !range_keys_singleton. cbn [foldM].
  unfold bind, mergeGroupStep, group_of. rewrite !lookup_singleton_eq. simpl.
  unfold bind. destruct (MergePanels c1 c2 σ) as [[r σ']|]; [|done].
  unfold ret. simpl. unfold addGroupStep.
  rewrite insert_empty. by rewrite lookup_singleton_eq.
Qed.

Lemma assemble_without_rows σ merged ps1 top :
  Forall (λ p, ¬ isRow σ p) ps1 →
  assemble σ ∅ ∅ merged ps1 top = group_of merged s_none.
Proof.
  intros Hps. unfold assemble, onlyInPs2. rewrite range_keys_empty. cbn [foldl].
  assert (newGroupsBlock ∅ merged [] = ([], ∅)) as ->.
  { unfold newGroupsBlock. generalize (range_keys 4 merged). intros l.
    induction l as [|a l IH]; [done|]. cbn [foldl]. unfold newGroupStep at 2.
    rewrite bool_decide_eq_false_2 by apply not_elem_of_nil. exact IH. }
  assert (existingGroupsBlock σ ∅ ∅ merged ∅ ps1 = ([], ∅)) as ->.
  { unfold existingGroupsBlock. induction Hps as [|p ps Hp _ IH]; [done|].
    cbn [foldl]. rewrite walkStep_other by done. exact IH. }
  destruct top; simpl; by rewrite app_nil_r.
Qed.

(** X22. Between two dashboards without row markers, both with a panel
    whose type decodes, [MergePanelsByGroup] is [MergePanels] on the
    panels whose type decodes, followed by the repacking pass; the flag
    [top] plays no part. *)
Theorem MergePanelsByGroup_without_rows
    (ps1 ps2 : list Panel) (top : bool) (σ : Heap) :
  Forall (λ p, ¬ isRow σ p) ps1 → Forall (λ p, ¬ isRow σ p) ps2 →
  typed σ ps1 ≠ [] → typed σ ps2 ≠ [] →
  MergePanelsByGroup ps1 ps2 top σ =
  (let* res := MergePanels (typed σ ps1) (typed σ ps2) in
   let* _ := repack res in
   ret res) σ.
Proof.
  intros Hr1 Hr2 Hn1 Hn2.
  pose proof (groupLoop_without_rows ps1 ∅ σ Hr1) as G1.
  pose proof (groupLoop_without_rows ps2 ∅ σ Hr2) as G2.
  destruct (typed σ ps1) as [|a c1] eqn:E1; [done|].
  destruct (typed σ ps2) as [|b c2] eqn:E2; [done|].
  rewrite insert_empty in G1, G2. unfold group_of in G1, G2.
  rewrite lookup_empty in G1, G2. simpl in G1, G2.
  unfold MergePanelsByGroup, groupByRow.
  rewrite (bind_eq _ _ _ _ _ (bind_eq _ _ _ _ _ G1)). cbn [groups rows ret].
  rewrite (bind_eq (bind _ _) _ _ _ _ (bind_eq _ _ _ _ _ G2)).
  cbn [groups rows ret].
  destruct (MergePanels (a :: c1) (b :: c2) σ) as [[r σ3]|] eqn:Em.
  - assert (mergeGroups {[s_none := a :: c1]} {[s_none := b :: c2]} σ
            = Some ({[s_none := r]}, σ3)) as Hmg
      by (by rewrite mergeGroups_none, Em).
    rewrite (bind_eq _ _ _ _ _ Hmg), (bind_eq _ _ _ _ _ Em).
    rewrite (bind_eq get_heap _ σ3 σ3 σ3 eq_refl).
    rewrite assemble_without_rows.
    + unfold group_of. by rewrite lookup_singleton_eq.
    + eapply Forall_impl; [exact Hr1|]. intros p Hp Hrow. apply Hp.
      apply MergePanels_covers in Em as [Hf _].
      destruct (fields_decodedType σ σ3 p) as [Ety _]; [by intros; apply Hf|].
      unfold isRow in *. by rewrite <- Ety.
  - rewrite bind_None; [by rewrite bind_None|].
    by rewrite mergeGroups_none, Em.
Qed.

End WholeMore.

(** ** The theorems at work on the example dashboards *)
Module Runs.
Import GoJSON Examples.
#[local] Existing Instance range_fwd.

Lemma run_heap_after {A} (m : M A) (σ : Heap) (a : A) :
  fst <$> m σ = Some a → m σ = Some (a, heap_after m σ).
Proof. unfold heap_after. destruct (m σ) as [[a' σ']|]; simpl; congruence. Qed.

Ltac run := vm_compute; reflexivity.
Ltac runs := apply run_heap_after; run.
Ltac decided := apply (bool_decide_unpack _); vm_compute; exact I.

(** C1. The base holds two panels [cpu] with the ids 1 and 2, side by
    side; a panel [cpu] comes in. Both slots end up holding the incoming
    object, whose [id] and [gridPos] are those of the second slot: the
    first slot lost its own id 1 and its own position [x = 0]. *)
Theorem MergePanels_multi_match_first_slot_loses_position :
  ∃ σ', MergePanels [at_loc 0; at_loc 1] [at_loc 2] cpu_heap
          = Some ([at_loc 2; at_loc 2], σ') ∧
        Equals cpu_heap (at_loc 0) (at_loc 2) = true ∧
        IDRaw cpu_heap (at_loc 0) = Some "1"%string ∧
        GridPosRaw cpu_heap (at_loc 0)
          = Some (encode_GridPos (mkGridPos 4 12 0 0)) ∧
        IDRaw σ' (at_loc 2) = Some "2"%string ∧
        GridPosRaw σ' (at_loc 2)
          = Some (encode_GridPos (mkGridPos 4 12 12 0)).
Proof.
  exists (heap_after (MergePanels [at_loc 0; at_loc 1] [at_loc 2]) cpu_heap).
  split; [runs|]. split_and!; run.
Qed.

(** [mem] comes in beside the base panel [cpu], whose bottom edge is 4,
    and is appended with [y = 5]. *)
Lemma unmatched_append_witness :
  ∃ res σ',
    MergePanels [at_loc 0] [at_loc 1] cpu_mem_heap = Some (res, σ') ∧
    ∃ gps n,
      Forall2 (λ p g, Panel_GridPos cpu_mem_heap p = Some g) [at_loc 0] gps ∧
      n ≤ 0 ∧
      res !! (1 + n) = Some (at_loc 1) ∧
      GridPosRaw σ' (at_loc 1) =
        Some (marshal_GridPos
                {| H := 2; W := 6; X := 0;
                   Y := wrap64 (maxBottom gps + 2 * Z.of_nat n + 1) |}).
Proof.
  eexists _, (heap_after (MergePanels [at_loc 0] [at_loc 1]) cpu_mem_heap).
  split; [runs|].
  apply (unmatched_append [at_loc 0] [at_loc 1] cpu_mem_heap _ _ 0 (at_loc 1)).
  - runs.
  - reflexivity.
  - intros p ->%list_elem_of_singleton. run.
  - intros [|j] q' Hq Hj; [done|]. by destruct j.
Defined.

(** C2. The base is empty and two panels [cpu] come in. Neither has a
    match in the base; the first is appended with [y = 1], the second
    then matches it and takes its slot and its rectangle: the first is
    not in the output, and the second holds [y = 1], not the default
    rectangle of a second append. *)
Theorem unmatched_duplicate_takes_the_slot :
  ∃ σ', MergePanels [] [at_loc 0; at_loc 1] cpu_heap = Some ([at_loc 1], σ') ∧
        (at_loc 0 ∉ [at_loc 1]) ∧
        GridPosRaw σ' (at_loc 1) = Some (encode_GridPos (mkGridPos 2 6 0 1)).
Proof.
  exists (heap_after (MergePanels [] [at_loc 0; at_loc 1]) cpu_heap).
  split; [runs|]. split; [|run].
  intros Hin%list_elem_of_singleton. discriminate.
Qed.

(** C3, witness: the rows [A] and [B] of the incoming side only. *)
Lemma new_groups_block_order_witness :
  let r1 : gmap string Panel := ∅ in
  let r2 : gmap string Panel := <["A"%string := at_loc 0]> {["B"%string := at_loc 2]} in
  let merged : gmap string (list Panel) :=
    <["A"%string := [at_loc 1]]> {["B"%string := [at_loc 3]]} in
  let names := filter (λ t, t ∈ dom r2 ∖ dom r1) (range_keys 4 merged) in
  names ≡ₚ elements (dom r2 ∖ dom r1) ∧
  (newGroupsBlock r2 merged (onlyInPs2 r1 r2)).1 =
    concat ((λ t, row_of r2 t :: group_of merged t) <$> names).
Proof.
  intros r1 r2 merged.
  apply (new_groups_block_order r1 r2 merged).
  apply (bool_decide_unpack _). vm_compute. exact I.
Defined.

(** C3, counterexample: the same call under two orders of [range] gives
    two different outputs. *)
Lemma new_groups_order_follows_range :
  ∃ σ1 σ2,
    @MergePanelsByGroup json range_fwd []
       [at_loc 0; at_loc 1; at_loc 2; at_loc 3] true ab_heap
      = Some ([at_loc 0; at_loc 1; at_loc 2; at_loc 3], σ1) ∧
    @MergePanelsByGroup json range_rev []
       [at_loc 0; at_loc 1; at_loc 2; at_loc 3] true ab_heap
      = Some ([at_loc 2; at_loc 3; at_loc 0; at_loc 1], σ2).
Proof.
  exists (heap_after (@MergePanelsByGroup json range_fwd []
                        [at_loc 0; at_loc 1; at_loc 2; at_loc 3] true) ab_heap),
         (heap_after (@MergePanelsByGroup json range_rev []
                        [at_loc 0; at_loc 1; at_loc 2; at_loc 3] true) ab_heap).
  split; runs.
Qed.

(** A row without title met while the group is [A]. *)
Lemma row_without_title_keeps_group_witness :
  let st := {| groups := {["A"%string := []]};
               rows := {["A"%string := at_loc 0]};
               groupName := "A" |} in
  ∃ embedded σ1 σ',
    retrieveEmbeddedPanels (at_loc 1) untitled_heap = Some (embedded, σ1) ∧
    groupStep st (at_loc 1) untitled_heap =
    Some ({| groups := <[groupName st :=
                          group_of (groups st) (groupName st) ++ embedded]>
                       (groups st);
             rows := <[groupName st := at_loc 1]> (rows st);
             groupName := groupName st |}, σ').
Proof.
  intros st.
  apply (row_without_title_keeps_group st (at_loc 1) untitled_heap); run.
Defined.

(** C4. After the row [A], a row without title and the panel nested in
    it are recorded under [A], and nothing under ["none"]: the marker
    without title takes the place of the header of [A]. The walk then
    reads its absent title as ["none"], so the whole merge returns the
    marker without title, the nested panel and the marker again; the row
    [A] itself is not in the output. *)
Theorem untitled_row_takes_over_previous_group :
  ∃ g r σ1 σ',
    groupByRow [at_loc 0; at_loc 1] untitled_heap = Some ((g, r), σ1) ∧
    isRow untitled_heap (at_loc 1) ∧
    TitleRaw untitled_heap (at_loc 1) = None ∧
    walkTitle untitled_heap (at_loc 1) = s_none ∧
    r !! s_none = None ∧ r !! "A"%string = Some (at_loc 1) ∧
    g !! s_none = None ∧ g !! "A"%string = Some [at_loc 2] ∧
    MergePanelsByGroup [at_loc 0; at_loc 1] [] false untitled_heap
      = Some ([at_loc 1; at_loc 2; at_loc 1], σ') ∧
    (at_loc 0 ∉ [at_loc 1; at_loc 2; at_loc 1]).
Proof.
  eexists _, _, (heap_after (groupByRow [at_loc 0; at_loc 1]) untitled_heap),
    (heap_after (MergePanelsByGroup [at_loc 0; at_loc 1] [] false) untitled_heap).
  split; [runs|]. do 7 (split; [run|]). split; [runs | decided].
Qed.

(** C5, witness: the second of two row markers titled [A]. *)
Lemma walk_emits_every_header_witness :
  let r1 : gmap string Panel := {["A"%string := at_loc 1]} in
  let r2 : gmap string Panel := ∅ in
  let merged : gmap string (list Panel) := {["A"%string := [at_loc 2]]} in
  ∃ rest,
    (existingGroupsBlock twice_heap r1 r2 merged ∅
       ([at_loc 0] ++ at_loc 1 :: [at_loc 2])).1 =
    (existingGroupsBlock twice_heap r1 r2 merged ∅ [at_loc 0]).1 ++
    chooseHeader r1 r2 (walkTitle twice_heap (at_loc 1)) (at_loc 1) ::
    (if decide (walkTitle twice_heap (at_loc 1)
                  ∈ (existingGroupsBlock twice_heap r1 r2 merged ∅ [at_loc 0]).2)
     then [] else group_of merged (walkTitle twice_heap (at_loc 1))) ++ rest.
Proof.
  intros r1 r2 merged.
  apply (walk_emits_every_header twice_heap r1 r2 merged ∅
           [at_loc 0] (at_loc 1) [at_loc 2]).
  run.
Defined.

(** C5, counterexample: two row markers of [ps1] titled [A]; the header
    recorded for [A] is in the output twice. *)
Lemma repeated_title_header_emitted_twice :
  ∃ σ',
    MergePanelsByGroup [at_loc 0; at_loc 1; at_loc 2] [] false twice_heap
      = Some ([at_loc 1; at_loc 2; at_loc 1], σ') ∧
    walkTitle twice_heap (at_loc 0) = "A"%string ∧
    walkTitle twice_heap (at_loc 1) = "A"%string.
Proof.
  exists (heap_after (MergePanelsByGroup [at_loc 0; at_loc 1; at_loc 2] [] false)
            twice_heap).
  split; [runs|]. split; run.
Qed.



(** C7, witness: three panels with the same title and type. *)
Lemma MergePanels_self_length_witness :
  ∃ res σ',
    MergePanels [at_loc 0; at_loc 1; at_loc 2] [at_loc 0; at_loc 1; at_loc 2]
      cpu_heap = Some (res, σ') ∧
    length res = 3.
Proof.
  apply (MergePanels_self_length [at_loc 0; at_loc 1; at_loc 2] cpu_heap).
  repeat constructor; try discriminate; eexists; run.
Defined.



(** The incoming [cpu] matches both base slots. *)
Lemma multi_match_last_slot_wins_witness :
  ∃ maxY' res' σ',
    mergeStep (4%Z, [at_loc 0; at_loc 1]) (at_loc 2) cpu_heap
      = Some ((maxY', res'), σ') ∧
    res' = (λ r, if Equals cpu_heap r (at_loc 2) then at_loc 2 else r)
             <$> [at_loc 0; at_loc 1] ∧
    res' !! 0 = Some (at_loc 2) ∧ res' !! 1 = Some (at_loc 2) ∧
    maxY' = 4%Z ∧
    GridPosRaw σ' (at_loc 2) = GridPosRaw cpu_heap (at_loc 1) ∧
    IDRaw σ' (at_loc 2) = IDRaw cpu_heap (at_loc 1).
Proof.
  eexists _, _, (heap_after (mergeStep (4%Z, [at_loc 0; at_loc 1]) (at_loc 2))
                   cpu_heap).
  split; [runs|].
  apply (multi_match_last_slot_wins 4 [at_loc 0; at_loc 1] (at_loc 2) cpu_heap
           _ _ _ 0 1 (at_loc 0) (at_loc 1)).
  - runs.
  - reflexivity.
  - reflexivity.
  - lia.
  - run.
  - run.
  - intros [|[|j']] r Hj Hr; [lia | lia | done].
  - discriminate.
Defined.

(** The incoming panel is the object of the last matching slot: both
    slots end up with the [id] and [gridPos] of the first slot. *)
Lemma aliased_last_slot_takes_first_position :
  ∃ σ',
    mergeStep (4%Z, [at_loc 0; at_loc 1]) (at_loc 1) cpu_heap
      = Some ((4%Z, [at_loc 1; at_loc 1]), σ') ∧
    Equals cpu_heap (at_loc 0) (at_loc 1) = true ∧
    Equals cpu_heap (at_loc 1) (at_loc 1) = true ∧
    IDRaw cpu_heap (at_loc 1) = Some "2"%string ∧
    IDRaw σ' (at_loc 1) = Some "1"%string ∧
    GridPosRaw cpu_heap (at_loc 1) = Some (encode_GridPos (mkGridPos 4 12 12 0)) ∧
    GridPosRaw σ' (at_loc 1) = Some (encode_GridPos (mkGridPos 4 12 0 0)).
Proof.
  exists (heap_after (mergeStep (4%Z, [at_loc 0; at_loc 1]) (at_loc 1)) cpu_heap).
  split; [runs|]. split_and!; run.
Qed.


(** C10, witness: a row titled [none] followed by the panel [cpu]. *)
Lemma none_group_emitted_twice_witness :
  ∃ res σ',
    MergePanelsByGroup [at_loc 0; at_loc 1] [] false none_heap = Some (res, σ') ∧
    ∃ g1 r1 σ1 g2 r2 σ2 merged σ3 hdr a b,
      groupByRow [at_loc 0; at_loc 1] none_heap = Some ((g1, r1), σ1) ∧
      groupByRow [] σ1 = Some ((g2, r2), σ2) ∧
      mergeGroups g1 g2 σ2 = Some (merged, σ3) ∧
      r1 !! s_none = Some hdr ∧ hdr ∈ [at_loc 0; at_loc 1] ∧
      s_none ∈ dom merged ∧
      res = group_of merged s_none ++ a ++ hdr :: group_of merged s_none ++ b.
Proof.
  eexists _, (heap_after (MergePanelsByGroup [at_loc 0; at_loc 1] [] false)
                none_heap).
  split; [runs|].
  eapply (none_group_emitted_twice [at_loc 0; at_loc 1] [] false none_heap
            _ _ (at_loc 0)).
  - runs.
  - repeat constructor.
  - run.
  - run.
Defined.


(** *** Further runs *)

(** Merging nothing into the two panels [cpu]. *)
Lemma MergePanels_nothing_incoming_witness :
  MergePanels [at_loc 0; at_loc 1] [] cpu_heap
    = Some ([at_loc 0; at_loc 1], cpu_heap).
Proof.
  eapply (MergePanels_nothing_incoming [at_loc 0; at_loc 1] cpu_heap).
  repeat constructor; eexists; run.
Defined.

(** The title of the incoming [cpu] after the merge. *)
Lemma MergePanels_writes_only_gridPos_and_id_witness :
  ∃ res σ',
    MergePanels [at_loc 0; at_loc 1] [at_loc 2] cpu_heap = Some (res, σ') ∧
    field_ok σ' (at_loc 2) s_title = field_ok cpu_heap (at_loc 2) s_title.
Proof.
  eexists _, (heap_after (MergePanels [at_loc 0; at_loc 1] [at_loc 2]) cpu_heap).
  split; [runs|].
  eapply (MergePanels_writes_only_gridPos_and_id
           [at_loc 0; at_loc 1] [at_loc 2] cpu_heap _ _); [runs | done | done].
Defined.

(** The first base panel [cpu] is represented after the merge. *)
Lemma MergePanels_keeps_every_key_witness :
  ∃ res σ',
    MergePanels [at_loc 0; at_loc 1] [at_loc 2] cpu_heap = Some (res, σ') ∧
    ∃ r, r ∈ res ∧ Equals σ' r (at_loc 0) = true.
Proof.
  eexists _, (heap_after (MergePanels [at_loc 0; at_loc 1] [at_loc 2]) cpu_heap).
  split; [runs|].
  eapply (MergePanels_keeps_every_key
           [at_loc 0; at_loc 1] [at_loc 2] cpu_heap _ _ (at_loc 0)); [runs|].
  repeat constructor.
Defined.

(** [mem] comes in beside [cpu]: two panels, both from the inputs. *)
Lemma MergePanels_result_from_inputs_witness :
  ∃ res σ',
    MergePanels [at_loc 0] [at_loc 1] cpu_mem_heap = Some (res, σ') ∧
    (∀ r, r ∈ res → r ∈ [at_loc 0] ∨ r ∈ [at_loc 1]) ∧
    length [at_loc 0] ≤ length res ≤ length [at_loc 0] + length [at_loc 1].
Proof.
  eexists _, (heap_after (MergePanels [at_loc 0] [at_loc 1]) cpu_mem_heap).
  split; [runs|].
  eapply (MergePanels_result_from_inputs [at_loc 0] [at_loc 1] cpu_mem_heap).
  runs.
Defined.

(** The second slot of the base after a [cpu] came in. *)
Lemma MergePanels_base_slots_keep_key_witness :
  ∃ res σ',
    MergePanels [at_loc 0; at_loc 1] [at_loc 2] cpu_heap = Some (res, σ') ∧
    ∃ r, res !! 1 = Some r ∧ Equals σ' r (at_loc 1) = true.
Proof.
  eexists _, (heap_after (MergePanels [at_loc 0; at_loc 1] [at_loc 2]) cpu_heap).
  split; [runs|].
  eapply (MergePanels_base_slots_keep_key
           [at_loc 0; at_loc 1] [at_loc 2] cpu_heap _ _ 1 (at_loc 1));
    [runs | reflexivity].
Defined.

(** [cpu] is untouched when [mem] comes in. *)
Lemma MergePanels_unmatched_base_untouched_witness :
  ∃ res σ',
    MergePanels [at_loc 0] [at_loc 1] cpu_mem_heap = Some (res, σ') ∧
    res !! 0 = Some (at_loc 0) ∧
    ∀ k, field σ' (at_loc 0) k = field cpu_mem_heap (at_loc 0) k.
Proof.
  eexists _, (heap_after (MergePanels [at_loc 0] [at_loc 1]) cpu_mem_heap).
  split; [runs|].
  eapply (MergePanels_unmatched_base_untouched
           [at_loc 0] [at_loc 1] cpu_mem_heap _ _ 0 (at_loc 0)).
  - runs.
  - reflexivity.
  - intros q ->%list_elem_of_singleton. run.
Defined.

(** The row [A] and the row without title. *)
Lemma groupByRow_writes_only_row_markers_witness :
  ∃ g r σ',
    groupByRow [at_loc 0; at_loc 1] untitled_heap = Some ((g, r), σ') ∧
    stable [s_panels; s_collapsed] untitled_heap σ' ∧
    (∀ l, l ∈ dom untitled_heap → ¬ isRow untitled_heap (Some l) →
          deref σ' l = deref untitled_heap l).
Proof.
  eexists _, _, (heap_after (groupByRow [at_loc 0; at_loc 1]) untitled_heap).
  split; [runs|].
  eapply (groupByRow_writes_only_row_markers
           [at_loc 0; at_loc 1] untitled_heap _ _ _).
  runs.
Defined.

(** The header recorded for [A] is the row without title. *)
Lemma groupByRow_rows_flattened_witness :
  ∃ g r σ',
    groupByRow [at_loc 0; at_loc 1] untitled_heap = Some ((g, r), σ') ∧
    at_loc 1 ∈ [at_loc 0; at_loc 1] ∧ isRow σ' (at_loc 1) ∧
    field σ' (at_loc 1) s_panels = raw_empty_array ∧
    field σ' (at_loc 1) s_collapsed = raw_false.
Proof.
  eexists _, _, (heap_after (groupByRow [at_loc 0; at_loc 1]) untitled_heap).
  split; [runs|].
  eapply (groupByRow_rows_flattened
           [at_loc 0; at_loc 1] untitled_heap _ _ _ "A" (at_loc 1));
    [runs | run].
Defined.

(** [cpu] and [mem], no row. *)
Lemma groupByRow_without_rows_witness :
  groupByRow [at_loc 0; at_loc 1] cpu_mem_heap =
  Some ((match typed cpu_mem_heap [at_loc 0; at_loc 1] with
         | [] => ∅
         | l => {[s_none := l]}
         end, ∅), cpu_mem_heap).
Proof.
  eapply (groupByRow_without_rows [at_loc 0; at_loc 1] cpu_mem_heap).
  repeat constructor; unfold isRow; vm_compute; discriminate.
Defined.

(** Repacking the panels of widths 12, 12 and 8. *)
Lemma repack_writes_only_gridPos_witness :
  ∃ placed σ',
    repack [at_loc 0; at_loc 1; at_loc 2] wide_heap = Some (placed, σ') ∧
    (∀ p k, k ≠ s_gridPos → field_ok σ' p k = field_ok wide_heap p k) ∧
    (∀ p k, p ∉ [at_loc 0; at_loc 1; at_loc 2] →
            field_ok σ' p k = field_ok wide_heap p k).
Proof.
  eexists _, (heap_after (repack [at_loc 0; at_loc 1; at_loc 2]) wide_heap).
  split; [runs|].
  eapply (repack_writes_only_gridPos [at_loc 0; at_loc 1; at_loc 2] wide_heap _ _).
  runs.
Defined.

Lemma repack_within_grid_witness :
  ∃ placed σ',
    repack [at_loc 0; at_loc 1; at_loc 2] wide_heap = Some (placed, σ') ∧
    Forall (λ g, 0 ≤ X g ∧ X g + W g ≤ maxWidth)%Z placed.
Proof.
  eexists _, (heap_after (repack [at_loc 0; at_loc 1; at_loc 2]) wide_heap).
  split; [runs|].
  eapply (repack_within_grid [at_loc 0; at_loc 1; at_loc 2] wide_heap); [runs|].
  repeat (apply List.Forall_cons; [unfold maxWidth; simpl; lia|]).
  apply List.Forall_nil.
Defined.

Lemma repack_keeps_sizes_witness :
  ∃ placed σ',
    repack [at_loc 0; at_loc 1; at_loc 2] wide_heap = Some (placed, σ') ∧
    Forall2 (λ p g', ∃ g, Panel_GridPos wide_heap p = Some g ∧
                          H g' = H g ∧ W g' = W g ∧
                          GridPosRaw σ' p = Some (marshal_GridPos g'))
            [at_loc 0; at_loc 1; at_loc 2] placed.
Proof.
  eexists _, (heap_after (repack [at_loc 0; at_loc 1; at_loc 2]) wide_heap).
  split; [runs|].
  eapply (repack_keeps_sizes [at_loc 0; at_loc 1; at_loc 2] wide_heap);
    [decided | runs].
Defined.

(** A dashboard whose [panels] holds the one panel [disk]. *)
Lemma Dashboard_Panels_fresh_witness :
  ∃ ps σ',
    Dashboard_Panels {[s_panels := Some nested_disk]} cpu_heap = Some (ps, σ') ∧
    stable [] cpu_heap σ' ∧ NoDup (locs ps) ∧
    (∀ l, l ∈ locs ps → (l ∉ dom cpu_heap) ∧ l ∈ dom σ').
Proof.
  eexists _, (heap_after (Dashboard_Panels {[s_panels := Some nested_disk]})
                cpu_heap).
  split; [runs|].
  eapply (Dashboard_Panels_fresh {[s_panels := Some nested_disk]} cpu_heap).
  runs.
Defined.

(** The group [A] of one side and the group [B] of the other. *)
Lemma mergeGroups_one_sided_witness :
  let g1 : gmap string (list Panel) := {["A"%string := [at_loc 0]]} in
  let g2 : gmap string (list Panel) := {["B"%string := [at_loc 1]]} in
  ∃ merged σ',
    mergeGroups g1 g2 cpu_mem_heap = Some (merged, σ') ∧
    (g2 !! "A"%string = None → merged !! "A"%string = g1 !! "A"%string) ∧
    (g1 !! "A"%string = None → merged !! "A"%string = g2 !! "A"%string).
Proof.
  intros g1 g2.
  eexists _, (heap_after (mergeGroups g1 g2) cpu_mem_heap).
  split; [runs|].
  eapply (mergeGroups_one_sided g1 g2 cpu_mem_heap _ _ "A").
  runs.
Defined.

(** The title of the first row after the rows [A] and [B] were merged. *)
Lemma MergePanelsByGroup_writes_four_fields_witness :
  ∃ res σ',
    MergePanelsByGroup [at_loc 0; at_loc 1] [at_loc 2; at_loc 3] true ab_heap
      = Some (res, σ') ∧
    field_ok σ' (Some 0) s_title = field_ok ab_heap (Some 0) s_title.
Proof.
  eexists _, (heap_after (MergePanelsByGroup [at_loc 0; at_loc 1]
                            [at_loc 2; at_loc 3] true) ab_heap).
  split; [runs|].
  eapply (MergePanelsByGroup_writes_four_fields
           [at_loc 0; at_loc 1] [at_loc 2; at_loc 3] true ab_heap _ _);
    [runs | decided | decided].
Defined.

(** [cpu] on one side and [mem] on the other, no row. *)
Lemma MergePanelsByGroup_without_rows_witness :
  MergePanelsByGroup [at_loc 0] [at_loc 1] true cpu_mem_heap =
  (let* res := MergePanels (typed cpu_mem_heap [at_loc 0])
                           (typed cpu_mem_heap [at_loc 1]) in
   let* _ := repack res in
   ret res) cpu_mem_heap.
Proof.
  eapply (MergePanelsByGroup_without_rows [at_loc 0] [at_loc 1] true cpu_mem_heap).
  - repeat constructor; unfold isRow; vm_compute; discriminate.
  - repeat constructor; unfold isRow; vm_compute; discriminate.
  - vm_compute; discriminate.
  - vm_compute; discriminate.
Defined.

End Runs.
